(** * Verification of [scripts/parse_aepx.py] (ajeebtech/vervideos)

    A shallow embedding of the asset extractor for After Effects project
    files: the candidate collection over the parsed XML tree, the
    resolution loop over the candidate set, the final ordering of the
    report, and the command-line wrapper with its exit codes.

    Conventions of the model.
    - A Python [str] is a Rocq [string], one [ascii] per character, so the
      model speaks about text whose code points are below 256; comparison is
      by code point, as in Python.
    - The [os.path] functions are those of CPython's [posixpath].
    - The file system, the working directory and the outcome of
      [ET.parse] form a [World] that does not change during a run.
    - The iteration order of a Python [set] is not specified; every run is
      given a [SetOrder], an arbitrary permutation of the set's elements. *)

From Stdlib Require Import ZArith Ascii String DecimalString DecimalPos.
From stdpp Require Import gmap strings list sorting.

Local Open Scope string_scope.
Local Open Scope Z_scope.
Local Set Warnings "-clear-no-such-hyp".

(** ** Python strings *)

Module PyStr.

(** Truth value of a string: non-empty. *)
Definition truthy (s : string) : bool :=
  match s with EmptyString => false | String _ _ => true end.

(** [str.isspace] on one character: the code points 9 to 13, 28 to 32,
    133 and 160 are the white space below 256. *)
Definition isspace (c : ascii) : bool :=
  let n := nat_of_ascii c in
  ((9 <=? n) && (n <=? 13) || (28 <=? n) && (n <=? 32)
   || (n =? 133) || (n =? 160))%nat.

Fixpoint lstrip (s : string) : string :=
  match s with
  | EmptyString => EmptyString
  | String c s' => if isspace c then lstrip s' else s
  end.

Fixpoint rstrip (s : string) : string :=
  match s with
  | EmptyString => EmptyString
  | String c s' =>
      match rstrip s' with
      | EmptyString => if isspace c then EmptyString else String c EmptyString
      | r => String c r
      end
  end.

(** [s.strip()] *)
Definition strip (s : string) : string := rstrip (lstrip s).

(** [s.startswith(p)] *)
Definition startswith (s p : string) : bool := String.prefix p s.

(** [s.startswith((p1, p2, ...))] *)
Definition startswith_any (s : string) (ps : list string) : bool :=
  existsb (startswith s) ps.

(** [s.endswith(p)] *)
Fixpoint endswith (s p : string) : bool :=
  String.eqb s p ||
  match s with
  | EmptyString => false
  | String _ s' => endswith s' p
  end.

(** [sub in s] *)
Fixpoint contains (sub s : string) : bool :=
  startswith s sub ||
  match s with
  | EmptyString => false
  | String _ s' => contains sub s'
  end.

(** Lower case of one character: the letters [A] to [Z], and below 256 the
    accented capitals 192 to 222, the sign 215 apart. *)
Definition lower_char (c : ascii) : ascii :=
  let n := nat_of_ascii c in
  if ((65 <=? n) && (n <=? 90)
      || (192 <=? n) && (n <=? 222) && negb (n =? 215))%nat
  then ascii_of_nat (n + 32) else c.

(** [s.lower()] *)
Fixpoint lower (s : string) : string :=
  match s with
  | EmptyString => EmptyString
  | String c s' => String (lower_char c) (lower s')
  end.

(** [s.split(sep)] for a one-character separator. *)
Fixpoint split (sep : ascii) (s : string) : list string :=
  match s with
  | EmptyString => [EmptyString]
  | String c s' =>
      if Ascii.eqb c sep then EmptyString :: split sep s'
      else match split sep s' with
           | h :: t => String c h :: t
           | [] => [String c EmptyString]
           end
  end.

(** [sep.join(l)] *)
Fixpoint join (sep : string) (l : list string) : string :=
  match l with
  | [] => EmptyString
  | [x] => x
  | x :: l' => x +:+ sep +:+ join sep l'
  end.

(** [s.rpartition(sep)] for a one-character separator: the text before and
    after the last occurrence of [sep], or [None] when there is none. *)
Fixpoint rpartition (sep : ascii) (s : string) : option (string * string) :=
  match s with
  | EmptyString => None
  | String c s' =>
      match rpartition sep s' with
      | Some (h, t) => Some (String c h, t)
      | None => if Ascii.eqb c sep then Some (EmptyString, s') else None
      end
  end.

(** [s == c * len(s)] *)
Fixpoint all_char (c : ascii) (s : string) : bool :=
  match s with
  | EmptyString => true
  | String a s' => Ascii.eqb a c && all_char c s'
  end.

(** [s.rstrip(c)] for one character. *)
Fixpoint rstrip_char (c : ascii) (s : string) : string :=
  match s with
  | EmptyString => EmptyString
  | String a s' =>
      match rstrip_char c s' with
      | EmptyString => if Ascii.eqb a c then EmptyString else String a EmptyString
      | r => String a r
      end
  end.

End PyStr.

Import PyStr.

(** ** Exceptions

    The classes that [except Exception] catches, with the text that
    [str(e)] gives; [SystemExit], raised by [sys.exit], is not one of them. *)

Inductive Exception : Type :=
  | ParseError (msg : string)
  | FileNotFoundError (msg : string)
  | PermissionError (msg : string)
  | IsADirectoryError (msg : string)
  | OSError (msg : string)
  | ValueError (msg : string)
  | OtherException (cls msg : string).

Definition exc_str (e : Exception) : string :=
  match e with
  | ParseError m | FileNotFoundError m | PermissionError m
  | IsADirectoryError m | OSError m | ValueError m | OtherException _ m => m
  end.

Inductive Raised : Type :=
  | Exc (e : Exception)
  | SystemExit (code : Z).

(** ** [os.path] on POSIX *)

Module posixpath.

(** [isabs(s)]: [s.startswith('/')] *)
Definition isabs (s : string) : bool := startswith s "/".

(** [join(a, b)] *)
Definition join (a b : string) : string :=
  if startswith b "/" then b
  else if negb (truthy a) || endswith a "/" then a +:+ b
  else a +:+ "/" +:+ b.

(** [join(a, *p)] *)
Definition join_all (a : string) (p : list string) : string := foldl join a p.

(** The number of leading slashes that [normpath] keeps: POSIX allows one
    or two, and treats three or more as one. *)
Definition initial_slashes (path : string) : nat :=
  if startswith path "/" then
    if startswith path "//" && negb (startswith path "///") then 2%nat else 1%nat
  else 0%nat.

(** One round of the loop of [normpath] over the components. *)
Definition norm_step (initial : nat) (new_comps : list string) (comp : string)
  : list string :=
  if String.eqb comp "" || String.eqb comp "." then new_comps
  else if negb (String.eqb comp "..")
          || (Nat.eqb initial 0 && bool_decide (new_comps = []))
          || bool_decide (last new_comps = Some "..")
  then new_comps ++ [comp]
  else removelast new_comps.

Fixpoint slashes (n : nat) : string :=
  match n with O => EmptyString | S n' => String "/" (slashes n') end.

(** [normpath(path)] *)
Definition normpath (path : string) : string :=
  if negb (truthy path) then "."
  else
    let initial := initial_slashes path in
    let comps := foldl (norm_step initial) [] (split "/" path) in
    let path := PyStr.join "/" comps in
    let path := if (0 <? initial)%nat then slashes initial +:+ path else path in
    if truthy path then path else ".".

(** [p[:i]] for [i = p.rfind('/') + 1] *)
Definition head_part (p : string) : string :=
  match rpartition "/" p with
  | Some (h, _) => h +:+ "/"
  | None => EmptyString
  end.

(** [basename(p)]: [p[i:]] for [i = p.rfind('/') + 1] *)
Definition basename (p : string) : string :=
  match rpartition "/" p with
  | Some (_, t) => t
  | None => p
  end.

(** [dirname(p)] *)
Definition dirname (p : string) : string :=
  let head := head_part p in
  if truthy head && negb (all_char "/" head) then rstrip_char "/" head else head.

(** [splitext(p)]: the extension starts at the last dot of the final
    segment, unless only dots precede it there. *)
Definition splitext (p : string) : string * string :=
  match rpartition "." (basename p) with
  | Some (stem, e) =>
      if all_char "." stem then (p, EmptyString)
      else (head_part p +:+ stem, String "." e)
  | None => (p, EmptyString)
  end.

(** [abspath(path)], with [cwd] the result of [os.getcwd()] *)
Definition abspath (cwd path : string) : string :=
  normpath (if negb (isabs path) then join cwd path else path).

Fixpoint common_prefix_len (l1 l2 : list string) : nat :=
  match l1, l2 with
  | x :: l1', y :: l2' =>
      if String.eqb x y then S (common_prefix_len l1' l2') else O
  | _, _ => O
  end.

(** [[x for x in abspath(p).split('/') if x]] *)
Definition segments (cwd p : string) : list string :=
  List.filter truthy (split "/" (abspath cwd p)).

(** [relpath(path, start)] *)
Definition relpath (cwd path start : string) : Exception + string :=
  if negb (truthy path) then inl (ValueError "no path specified")
  else
    let start_list := segments cwd start in
    let path_list := segments cwd path in
    let i := common_prefix_len start_list path_list in
    let rel_list :=
      (repeat ".." (length start_list - i) ++ drop i path_list)%list in
    match rel_list with
    | [] => inr "."
    | a :: p => inr (join_all a p)
    end.

End posixpath.

(** ** The interpreter state: output streams, exceptions, exit *)

Record Streams : Type := mkStreams {
  stdout : list string;   (* one entry per [print(...)] *)
  stderr : list string    (* one entry per [print(..., file=sys.stderr)] *)
}.

Inductive Outcome (A : Type) : Type :=
  | Return (a : A)
  | Raise (r : Raised).
Arguments Return {A} a.
Arguments Raise {A} r.

Definition Py (A : Type) : Type := Streams → Outcome A * Streams.

#[export] Instance Py_ret : MRet Py := λ A a st, (Return a, st).

#[export] Instance Py_bind : MBind Py := λ A B f m st,
  match m st with
  | (Return a, st') => f a st'
  | (Raise r, st') => (Raise r, st')
  end.

Definition raise {A} (e : Exception) : Py A := λ st, (Raise (Exc e), st).

(** [sys.exit(code)] *)
Definition sys_exit {A} (code : Z) : Py A := λ st, (Raise (SystemExit code), st).

(** [print(line)] *)
Definition print (line : string) : Py unit := λ st,
  (Return tt, mkStreams (stdout st ++ [line]) (stderr st)).

(** [print(line, file=sys.stderr)] *)
Definition print_err (line : string) : Py unit := λ st,
  (Return tt, mkStreams (stdout st) (stderr st ++ [line])).

(** A library call that returns or raises. *)
Definition lift {A} (r : Exception + A) : Py A :=
  match r with inl e => raise e | inr a => mret a end.

(** [for x in l: s = body(s, x)] *)
Fixpoint for_each {A S} (body : S → A → Py S) (s : S) (l : list A) : Py S :=
  match l with
  | [] => mret s
  | x :: l' => s' ← body s x; for_each body s' l'
  end.

(** ** The parsed document: [xml.etree.ElementTree.Element] *)

#[warnings="-register-all"]
Inductive Element : Type :=
  mkElement (tag : string) (attrib : gmap string string)
            (text : option string) (children : list Element).

Definition tag (e : Element) : string :=
  match e with mkElement t _ _ _ => t end.
Definition attrib (e : Element) : gmap string string :=
  match e with mkElement _ a _ _ => a end.
Definition text (e : Element) : option string :=
  match e with mkElement _ _ t _ => t end.
Definition children (e : Element) : list Element :=
  match e with mkElement _ _ _ c => c end.

(** [root.iter()]: the element and all its descendants, in document order. *)
Fixpoint iter (e : Element) : list Element :=
  match e with
  | mkElement _ _ _ cs => e :: concat (map iter cs)
  end.

(** [root.iter(t)]: those of them whose tag is [t]. *)
Definition iter_tag (t : string) (e : Element) : list Element :=
  filter (λ x, tag x = t) (iter e).

(** ** The world of one run *)

Record StatResult : Type := mkStat {
  st_isreg : bool;   (* [stat.S_ISREG(st_mode)] *)
  st_size : Z
}.

Record World : Type := mkWorld {
  getcwd : string;                          (* [os.getcwd()] *)
  stat : string → option StatResult;        (* [os.stat], [None] for [OSError] *)
  ET_parse : string → Exception + Element   (* [ET.parse(p).getroot()] *)
}.

Module os_path.
Import posixpath.

Definition exists_ (w : World) (p : string) : bool :=
  match stat w p with Some _ => true | None => false end.

Definition isfile (w : World) (p : string) : bool :=
  match stat w p with Some st => st_isreg st | None => false end.

Definition getsize (w : World) (p : string) : Exception + Z :=
  match stat w p with
  | Some st => inr (st_size st)
  | None => inl (FileNotFoundError p)
  end.

Definition abspath (w : World) (p : string) : string :=
  posixpath.abspath (getcwd w) p.

Definition relpath (w : World) (p start : string) : Exception + string :=
  posixpath.relpath (getcwd w) p start.
End os_path.

(** The order in which one run iterates over a [set]: any permutation of
    its elements. *)
Record SetOrder : Type := mkSetOrder {
  order : list string → list string;
  order_perm : ∀ l, order l ≡ₚ l
}.

Definition set_iter (o : SetOrder) (s : gset string) : list string :=
  order o (elements s).

(** ** The report *)

(** One entry of [result["assets"]]; the fields are the keys [path],
    [relative_path], [filename], [extension] and [size]. *)
Record AssetRecord : Type := mkAsset {
  a_path : string;
  a_relative_path : string;
  a_filename : string;
  a_extension : string;
  a_size : Z
}.

Record Report : Type := mkReport {
  project_file : string;
  assets : list AssetRecord;
  missing_assets : list string;
  total_size : Z
}.

(** ** [list.sort]: a stable sort that compares keys with [<] *)

Fixpoint insert_by {A} (key : A → string) (x : A) (l : list A) : list A :=
  match l with
  | [] => [x]
  | y :: l' => if String.ltb (key y) (key x) then y :: insert_by key x l'
               else x :: l
  end.

Definition sort_by {A} (key : A → string) (l : list A) : list A :=
  foldr (insert_by key) [] l.

(** ** [parse_aepx] *)

Section parse_aepx.
Import posixpath os_path.

(** [asset_paths.add(x)] *)
Definition set_add (asset_paths : gset string) (x : string) : gset string :=
  asset_paths ∪ {[ x ]}.

(** Method 1, the body of the loop over [root.iter()]. *)
Definition method1_body (asset_paths : gset string) (file_ref : Element)
  : gset string :=
  if endswith (tag file_ref) "fileReference"
     || contains "fileReference" (tag file_ref)
  then
    match attrib file_ref !! "fullpath" with
    | Some fullpath =>
        if truthy fullpath && truthy (strip fullpath)
        then set_add asset_paths (strip fullpath)
        else asset_paths
    | None => asset_paths
    end
  else asset_paths.

(** Method 2, the body of the loop over [root.iter('fullpath')]. *)
Definition method2_body (asset_paths : gset string) (fullpath : Element)
  : gset string :=
  match text fullpath with
  | Some t => if truthy t then set_add asset_paths t else asset_paths
  | None => asset_paths
  end.

(** Method 3, the inner loop over [elem.attrib.items()]. *)
Definition method3_attr (asset_paths : gset string) (item : string * string)
  : gset string :=
  let '(attr, value) := item in
  if contains "path" (lower attr) || contains "file" (lower attr)
  then set_add asset_paths value
  else asset_paths.

(** Method 3, the body of the loop over [root.iter()]. *)
Definition method3_body (asset_paths : gset string) (elem : Element)
  : gset string :=
  if bool_decide (tag elem ∈ ["file"; "path"; "src"; "source"]) then
    let asset_paths :=
      match text elem with
      | Some t => if truthy t then set_add asset_paths t else asset_paths
      | None => asset_paths
      end in
    foldl method3_attr asset_paths (map_to_list (attrib elem))
  else asset_paths.

(** The three loops, one after the other, on the same set. *)
Definition collect (root : Element) : gset string :=
  let asset_paths : gset string := ∅ in
  let asset_paths := foldl method1_body asset_paths (iter root) in
  let asset_paths := foldl method2_body asset_paths (iter_tag "fullpath" root) in
  let asset_paths := foldl method3_body asset_paths (iter root) in
  asset_paths.

Definition url_schemes : list string := ["http://"; "https://"; "file://"].

(** The body of the loop [for asset_path in asset_paths]. *)
Definition process_asset (w : World) (project_dir : string)
    (result : Report) (asset_path : string) : Py Report :=
  if negb (truthy asset_path) || String.eqb (strip asset_path) "" then
    mret result
  else
    let asset_path := strip asset_path in
    if startswith_any asset_path url_schemes then mret result
    else
      let asset_path :=
        if negb (isabs asset_path) then join project_dir asset_path
        else asset_path in
      let asset_path := normpath asset_path in
      if exists_ w asset_path && isfile w asset_path then
        file_size ← lift (getsize w asset_path);
        relative ← lift (relpath w asset_path project_dir);
        mret (mkReport (project_file result)
                (assets result ++
                   [mkAsset asset_path relative (basename asset_path)
                      (splitext asset_path).2 file_size])
                (missing_assets result)
                (total_size result + file_size))
      else
        mret (mkReport (project_file result) (assets result)
                (missing_assets result ++ [asset_path])
                (total_size result)).

Definition parse_aepx (w : World) (o : SetOrder) (aepx_path : string)
  : Py Report :=
  let result := mkReport (abspath w aepx_path) [] [] 0 in
  match ET_parse w aepx_path with
  | inl e =>
      print_err ("Warning: XML parse error: " +:+ exc_str e);;
      mret result
  | inr root =>
      let asset_paths := collect root in
      let project_dir := dirname (abspath w aepx_path) in
      result ← for_each (process_asset w project_dir) result
                 (set_iter o asset_paths);
      let result :=
        mkReport (project_file result) (sort_by a_path (assets result))
          (missing_assets result) (total_size result) in
      let result :=
        mkReport (project_file result) (assets result)
          (sort_by id (missing_assets result)) (total_size result) in
      mret result
  end.

End parse_aepx.

(** ** [json.dumps(value, indent=n)] *)

Module json.

#[warnings="-register-all"]
Inductive value : Type :=
  | JString (s : string)
  | JInt (n : Z)
  | JArray (items : list value)
  | JObject (items : list (string * value)).

Definition hex_digit (n : nat) : ascii :=
  ascii_of_nat (if (n <? 10)%nat then 48 + n else 87 + n).

(** One character of a string, with [ensure_ascii] on. *)
Definition escape_char (c : ascii) : string :=
  let n := nat_of_ascii c in
  if Nat.eqb n 92 then String c (String c EmptyString)
  else if Nat.eqb n 34 then String "\" (String c EmptyString)
  else if Nat.eqb n 10 then "\n"
  else if Nat.eqb n 13 then "\r"
  else if Nat.eqb n 9 then "\t"
  else if Nat.eqb n 8 then "\b"
  else if Nat.eqb n 12 then "\f"
  else if ((32 <=? n) && (n <=? 126))%nat then String c EmptyString
  else "\u00" +:+ String (hex_digit (n / 16)) (String (hex_digit (n mod 16)) EmptyString).

Fixpoint escape (s : string) : string :=
  match s with
  | EmptyString => EmptyString
  | String c s' => escape_char c +:+ escape s'
  end.

Definition quote : string := String (ascii_of_nat 34) EmptyString.

Definition encode_string (s : string) : string := quote +:+ escape s +:+ quote.

Definition encode_int (n : Z) : string := NilZero.string_of_int (Z.to_int n).

Fixpoint spaces (n : nat) : string :=
  match n with O => EmptyString | S n' => String " " (spaces n') end.

Definition newline_indent (indent level : nat) : string :=
  String (ascii_of_nat 10) (spaces (indent * level)).

Fixpoint encode (indent level : nat) (v : value) {struct v} : string :=
  match v with
  | JString s => encode_string s
  | JInt n => encode_int n
  | JArray [] => "[]"
  | JArray items =>
      "[" +:+ newline_indent indent (S level)
      +:+ PyStr.join ("," +:+ newline_indent indent (S level))
            (map (encode indent (S level)) items)
      +:+ newline_indent indent level +:+ "]"
  | JObject [] => "{}"
  | JObject items =>
      "{" +:+ newline_indent indent (S level)
      +:+ PyStr.join ("," +:+ newline_indent indent (S level))
            (map (λ kv, match kv with
                        | (k, x) => encode_string k +:+ ": " +:+ encode indent (S level) x
                        end) items)
      +:+ newline_indent indent level +:+ "}"
  end.

Definition dumps (v : value) (indent : nat) : string := encode indent 0 v.

End json.

Definition asset_json (a : AssetRecord) : json.value :=
  json.JObject
    [("path", json.JString (a_path a));
     ("relative_path", json.JString (a_relative_path a));
     ("filename", json.JString (a_filename a));
     ("extension", json.JString (a_extension a));
     ("size", json.JInt (a_size a))].

Definition report_json (r : Report) : json.value :=
  json.JObject
    [("project_file", json.JString (project_file r));
     ("assets", json.JArray (map asset_json (assets r)));
     ("missing_assets", json.JArray (map json.JString (missing_assets r)));
     ("total_size", json.JInt (total_size r))].

(** ** [main] and the process *)

Definition usage : string := "Usage: parse_aepx.py <path-to-aepx-file>".

(** [main()], with [argv] the whole of [sys.argv], the script's name first. *)
Definition main (w : World) (o : SetOrder) (argv : list string) : Py unit :=
  if negb (Nat.eqb (length argv) 2) then
    print_err usage;; sys_exit 1
  else
    let aepx_path := nth 1 argv EmptyString in
    if negb (os_path.exists_ w aepx_path) then
      print_err ("Error: File '" +:+ aepx_path +:+ "' not found");; sys_exit 1
    else if negb (endswith aepx_path ".aepx") then
      print_err "Error: File must have .aepx extension";; sys_exit 1
    else
      result ← parse_aepx w o aepx_path;
      print (json.dumps (report_json result) 2);;
      if bool_decide (missing_assets result ≠ []) then sys_exit 2
      else mret tt.

Record Process : Type := mkProcess {
  p_stdout : list string;
  p_stderr : list string;
  exit_code : Z
}.

(** Running the script: [main()] under [if __name__ == "__main__"]. Falling
    off the end exits with 0, [SystemExit(c)] with [c], and an exception that
    nothing caught prints a traceback and exits with 1. *)
Definition run_script (w : World) (o : SetOrder) (argv : list string) : Process :=
  match main w o argv (mkStreams [] []) with
  | (Return _, st) => mkProcess (stdout st) (stderr st) 0
  | (Raise (SystemExit c), st) => mkProcess (stdout st) (stderr st) c
  | (Raise (Exc e), st) =>
      mkProcess (stdout st) (stderr st ++ ["Traceback: " +:+ exc_str e]) 1
  end.

(** ** Concrete worlds, for running the model *)

Module Demo.

Definition elem (t : string) (a : list (string * string)) (x : option string)
    (cs : list Element) : Element :=
  mkElement t (list_to_map a) x cs.

Definition doc : Element :=
  elem "AfterEffectsProject" []  None
    [ elem "{http://www.adobe.com/aepx}fileReference"
        [("fullpath", " footage/clip.mov ")] None [];
      elem "path" [("note", "n")] (Some "footage/clip.mov") [];
      elem "fullpath" [] (Some "missing/img.png") [];
      elem "src" [("FilePath", "https://example.com/a.mov")] (Some "  ") [];
      elem "fileReference" [("fullpath", "HTTP://example.com/a.mov")] None [] ].

Definition fs (p : string) : option StatResult :=
  if String.eqb p "/proj/shot.aepx" then Some (mkStat true 300)
  else if String.eqb p "/proj/bad.aepx" then Some (mkStat true 7)
  else if String.eqb p "/proj/footage/clip.mov" then Some (mkStat true 1024)
  else if String.eqb p "/proj/footage" then Some (mkStat false 4096)
  else if String.eqb p "/proj" then Some (mkStat false 4096)
  else None.

Definition parse (p : string) : Exception + Element :=
  if String.eqb p "/proj/shot.aepx" then inr doc
  else if String.eqb p "shot.aepx" then inr doc
  else if String.eqb p "/proj/bad.aepx" then
    inl (ParseError "syntax error: line 1, column 0")
  else inl (FileNotFoundError ("[Errno 2] No such file or directory: " +:+ p)).

Definition w : World := mkWorld "/proj" fs parse.

Definition as_is : SetOrder := mkSetOrder id (λ l, reflexivity l).

Definition reversed : SetOrder := mkSetOrder reverse reverse_Permutation.

End Demo.

(** * Specification

    The notions that the statements below use; the definitions above are
    the program. *)

(** The one-character strings [/] and [.]. *)
Definition sep1 : string := String "/" EmptyString.

(** Lexicographic order by code point: [s] is a prefix of [t], or at the
    first place where they differ [s] has the smaller character. *)
Definition lex_le (s t : string) : Prop :=
  (∃ post, t = s +:+ post)
  ∨ (∃ pre a b s' t',
       s = pre +:+ String a s' ∧ t = pre +:+ String b t'
       ∧ (N_of_ascii a < N_of_ascii b)%N).

(** The order in which [sort_by key] leaves a list. *)
Definition key_le {A} (key : A → string) (x y : A) : Prop :=
  String.le (key x) (key y).

(** ** Resolution of one candidate, as the specification words it

    The steps of the specification, written as a function of the candidate
    alone; [process_asset_resolve] below shows that the loop body of the
    source computes exactly this. *)

Module Spec.
Import posixpath os_path.

Inductive Resolution : Type :=
  | Dropped
  | Present (a : AssetRecord)
  | Missing (p : string).

(** Steps 2, 4 and 5: trim, resolve against the project directory when
    not absolute, normalize. *)
Definition resolved_path (project_dir s : string) : string :=
  let t := strip s in
  normpath (if isabs t then t else join project_dir t).

(** Steps 1 and 3: the candidate is neither blank nor a URL. *)
Definition survives (s : string) : bool :=
  truthy (strip s) && negb (startswith_any (strip s) url_schemes).

Definition size_of (w : World) (p : string) : Z :=
  match stat w p with Some st => st_size st | None => 0 end.

Definition relative_to (w : World) (p start : string) : string :=
  match relpath w p start with inr x => x | inl _ => EmptyString end.

(** The record of step 6 for an existing regular file at [p]. *)
Definition asset_of (w : World) (project_dir p : string) : AssetRecord :=
  mkAsset p (relative_to w p project_dir) (basename p) (splitext p).2
    (size_of w p).

Definition resolve (w : World) (project_dir s : string) : Resolution :=
  if survives s then
    let p := resolved_path project_dir s in
    if isfile w p then Present (asset_of w project_dir p) else Missing p
  else Dropped.

(** What a resolution adds to the report. *)
Definition record (r : Report) (x : Resolution) : Report :=
  match x with
  | Dropped => r
  | Present a =>
      mkReport (project_file r) (assets r ++ [a]) (missing_assets r)
        (total_size r + a_size a)
  | Missing p =>
      mkReport (project_file r) (assets r) (missing_assets r ++ [p])
        (total_size r)
  end.

Definition present (x : Resolution) : option AssetRecord :=
  match x with Present a => Some a | _ => None end.

Definition missing (x : Resolution) : option string :=
  match x with Missing p => Some p | _ => None end.

(** The records, and the missing paths, that a list of candidates gives. *)
Definition found (w : World) (d : string) (l : list string) : list AssetRecord :=
  omap (λ s, present (resolve w d s)) l.

Definition lost (w : World) (d : string) (l : list string) : list string :=
  omap (λ s, missing (resolve w d s)) l.

Definition sum_sizes (l : list AssetRecord) : Z :=
  foldr (λ a acc, a_size a + acc) 0 l.

End Spec.

(** ** The rules of candidate collection, as the specification words them *)

(** The three rules as the specification words them: what one element
    contributes to the candidate set. *)
Module Rules.

(** The tag equals, ends with, or contains [fileReference]. *)
Definition is_reference_tag (t : string) : Prop :=
  t = "fileReference"
  ∨ (∃ pre, t = pre +:+ "fileReference")
  ∨ (∃ pre post, t = pre +:+ "fileReference" +:+ post).

(** Rule A: the trimmed value of the attribute [fullpath] of a reference
    element, when it is not blank. *)
Definition rule_A (e : Element) (s : string) : Prop :=
  is_reference_tag (tag e)
  ∧ ∃ v, attrib e !! "fullpath" = Some v ∧ strip v ≠ EmptyString ∧ s = strip v.

(** Rule B: the text of a [fullpath] element, as it is, when not empty. *)
Definition rule_B (e : Element) (s : string) : Prop :=
  tag e = "fullpath" ∧ text e = Some s ∧ s ≠ EmptyString.

(** The attribute name contains [path] or [file], whatever the case. *)
Definition names_path_or_file (k : string) : Prop :=
  (∃ pre post, lower k = pre +:+ "path" +:+ post)
  ∨ (∃ pre post, lower k = pre +:+ "file" +:+ post).

(** Rule C: the non-empty text of a generic path element, and the value of
    each of its attributes whose name mentions a path or a file. *)
Definition rule_C (e : Element) (s : string) : Prop :=
  tag e ∈ ["file"; "path"; "src"; "source"]
  ∧ ((text e = Some s ∧ s ≠ EmptyString)
     ∨ ∃ k, attrib e !! k = Some s ∧ names_path_or_file k).

(** The nodes of the tree under [root], [root] included. *)
Inductive node_of (root : Element) : Element → Prop :=
  | node_self : node_of root root
  | node_child c x : c ∈ children root → node_of c x → node_of root x.

End Rules.

(** ** Names for the statements *)

(** [project_dir] of the source. *)
Definition project_dir (w : World) (aepx_path : string) : string :=
  posixpath.dirname (os_path.abspath w aepx_path).

(** The report that is returned before anything is collected. *)
Definition empty_report (w : World) (aepx_path : string) : Report :=
  mkReport (os_path.abspath w aepx_path) [] [] 0.

(** The line that the soft-fail branch prints. *)
Definition warning (e : Exception) : string :=
  "Warning: XML parse error: " +:+ exc_str e.

(** The three checks of [main] before it calls [parse_aepx]; [argv] is the
    whole of [sys.argv], so one argument means two entries. *)
Definition rejected (w : World) (argv : list string) : Prop :=
  length argv ≠ 2%nat
  ∨ os_path.exists_ w (nth 1 argv "") = false
  ∨ endswith (nth 1 argv "") ".aepx" = false.

(** The value starts with one of the three URL schemes. *)
Definition is_url (t : string) : Prop :=
  ∃ scheme rest, scheme ∈ ["http://"; "https://"; "file://"] ∧ t = scheme +:+ rest.

(** The candidates that are neither blank nor URLs. *)
Definition survivors (S : gset string) : list string :=
  filter (λ s, Spec.survives s = true) (elements S).

(** The report for the demo project: the reference to an existing clip,
    given by two rules, is one record; the missing image and the reference
    with an upper-case scheme are missing; the [https] URL and the blank
    text are dropped. *)
Definition demo_report : Report :=
  mkReport "/proj/shot.aepx"
    [mkAsset "/proj/footage/clip.mov" "footage/clip.mov" "clip.mov" ".mov" 1024]
    ["/proj/HTTP:/example.com/a.mov"; "/proj/missing/img.png"]
    1024.

(** ** Notions for the further properties *)

(** A segment of a normalized path: not empty, neither [.] nor [..], and
    without slash. *)
Definition clean_segment (c : string) : Prop :=
  c ≠ EmptyString ∧ c ≠ "." ∧ c ≠ ".." ∧ contains sep1 c = false.

(** An absolute normalized path: one or two slashes, then clean segments
    with one slash between them. *)
Definition normalized_abs (x : string) : Prop :=
  ∃ k comps, (k = 1 ∨ k = 2)%nat
    ∧ x = posixpath.slashes k +:+ PyStr.join "/" comps
    ∧ Forall clean_segment comps.

(** A world where a directory carries the project suffix, and one that has
    one more file than the demo world, away from the project. *)
Module Demo2.

Definition fs_dir (p : string) : option StatResult :=
  if String.eqb p "/proj/dir.aepx" then Some (mkStat false 4096) else Demo.fs p.

Definition parse_dir (p : string) : Exception + Element :=
  if String.eqb p "/proj/dir.aepx" then
    inl (IsADirectoryError "[Errno 21] Is a directory: /proj/dir.aepx")
  else Demo.parse p.

Definition w_dir : World := mkWorld "/proj" fs_dir parse_dir.

Definition fs_more (p : string) : option StatResult :=
  if String.eqb p "/var/tmp/other.mov" then Some (mkStat true 5) else Demo.fs p.

Definition w_more : World := mkWorld "/proj" fs_more Demo.parse.

(** A document whose two references are the same file under two spellings. *)
Definition doc_twice : Element :=
  Demo.elem "AfterEffectsProject" [] None
    [ Demo.elem "fileReference" [("fullpath", "footage/clip.mov")] None [];
      Demo.elem "path" [] (Some "./footage/clip.mov") [] ].

Definition w_twice : World :=
  mkWorld "/proj" Demo.fs (λ _, inr doc_twice).

(** A document whose only candidates are a URL and a blank text. *)
Definition doc_urls : Element :=
  Demo.elem "AfterEffectsProject" [] None
    [ Demo.elem "fileReference" [("fullpath", "https://example.com/a.mov")] None [];
      Demo.elem "source" [] (Some "   ") [] ].

Definition w_urls : World :=
  mkWorld "/proj" Demo.fs (λ _, inr doc_urls).

End Demo2.

(** ** The extension and the relative path, as the specification words them *)






(** ** The text of a report, as the specification words it *)

Module Layout.

(** The double quote and the line break. *)
Definition dq : ascii := ascii_of_nat 34.
Definition q : string := String dq EmptyString.
Definition nl : string := String (ascii_of_nat 10) EmptyString.

(** Indentation: two spaces for each level. *)
Fixpoint pad (level : nat) : string :=
  match level with O => EmptyString | S n => "  " +:+ pad n end.

(** The items of a list with [sep] between them. *)
Fixpoint separated (sep : string) (items : list string) : string :=
  match items with
  | [] => EmptyString
  | [x] => x
  | x :: rest => x +:+ sep +:+ separated sep rest
  end.

(** A key and its value: the key in quotes, a colon, a space, the value. *)
Definition member (key value : string) : string :=
  q +:+ key +:+ q +:+ ": " +:+ value.

(** A block at [level]: the two brackets alone when it is empty; otherwise
    the opening bracket, each item on a line of its own one level deeper,
    a comma after each but the last, and the closing bracket on a line at
    [level]. *)
Definition block (level : nat) (opening closing : string) (items : list string)
  : string :=
  match items with
  | [] => opening +:+ closing
  | _ => opening +:+ nl
         +:+ separated ("," +:+ nl) (map (λ item, pad (S level) +:+ item) items)
         +:+ nl +:+ pad level +:+ closing
  end.

(** The text of one record and of the report, given the text [lit s] of
    each string and [num n] of each integer. *)
Definition asset_text (lit : string → string) (num : Z → string) (level : nat)
    (a : AssetRecord) : string :=
  block level "{" "}"
    [member "path" (lit (a_path a));
     member "relative_path" (lit (a_relative_path a));
     member "filename" (lit (a_filename a));
     member "extension" (lit (a_extension a));
     member "size" (num (a_size a))].

Definition report_text (lit : string → string) (num : Z → string) (r : Report)
  : string :=
  block 0 "{" "}"
    [member "project_file" (lit (project_file r));
     member "assets" (block 1 "[" "]" (map (asset_text lit num 2) (assets r)));
     member "missing_assets" (block 1 "[" "]" (map lit (missing_assets r)));
     member "total_size" (num (total_size r))].

(** The value of a hexadecimal digit. *)
Definition hex_val (c : ascii) : option nat :=
  let n := nat_of_ascii c in
  if ((48 <=? n) && (n <=? 57))%nat then Some (n - 48)%nat
  else if ((97 <=? n) && (n <=? 102))%nat then Some (n - 87)%nat
  else if ((65 <=? n) && (n <=? 70))%nat then Some (n - 55)%nat
  else None.

(** The character that four hexadecimal digits name, below 256. *)
Definition hex4 (h1 h2 h3 h4 : ascii) : option ascii :=
  match hex_val h1, hex_val h2, hex_val h3, hex_val h4 with
  | Some a, Some b, Some c, Some d =>
      let code := (((a * 16 + b) * 16 + c) * 16 + d)%nat in
      if (code <? 256)%nat then Some (ascii_of_nat code) else None
  | _, _, _, _ => None
  end.

(** The character that a one-letter escape of JSON names. *)
Definition simple_escape (e : ascii) : option ascii :=
  let n := nat_of_ascii e in
  if Nat.eqb n 34 then Some e
  else if Nat.eqb n 92 then Some e
  else if Nat.eqb n 47 then Some e
  else if Nat.eqb n 110 then Some (ascii_of_nat 10)
  else if Nat.eqb n 114 then Some (ascii_of_nat 13)
  else if Nat.eqb n 116 then Some (ascii_of_nat 9)
  else if Nat.eqb n 98 then Some (ascii_of_nat 8)
  else if Nat.eqb n 102 then Some (ascii_of_nat 12)
  else None.

(** A character that stands for itself inside a JSON string of printable
    ASCII: neither the quote nor the backslash. *)
Definition plain_char (c : ascii) : bool :=
  let n := nat_of_ascii c in
  ((32 <=? n) && (n <=? 126) && negb (n =? 34) && negb (n =? 92))%nat.

(** Reading the inside of a JSON string: the string it denotes, or [None]
    when it is not the inside of a JSON string of printable ASCII. *)
Fixpoint unescape (s : string) : option string :=
  match s with
  | EmptyString => Some EmptyString
  | String c rest =>
      if Nat.eqb (nat_of_ascii c) 92 then
        match rest with
        | EmptyString => None
        | String e rest' =>
            if Nat.eqb (nat_of_ascii e) 117 then
              match rest' with
              | String h1 (String h2 (String h3 (String h4 rest''))) =>
                  match hex4 h1 h2 h3 h4 with
                  | Some x => String x <$> unescape rest''
                  | None => None
                  end
              | _ => None
              end
            else
              match simple_escape e with
              | Some x => String x <$> unescape rest'
              | None => None
              end
        end
      else if plain_char c then String c <$> unescape rest
      else None
  end.

(** [lit] is a JSON string that denotes [s]. *)
Definition string_literal (lit s : string) : Prop :=
  ∃ body, lit = q +:+ body +:+ q ∧ unescape body = Some s.

(** [txt] is the decimal writing of [n]. *)
Definition decimal (txt : string) (n : Z) : Prop :=
  NilZero.int_of_string txt = Some (Z.to_int n).

(** [text] is the report [r] as JSON with an indentation of two spaces:
    the four keys in their order, each record with its five keys, strings
    as JSON strings and numbers in decimal. *)
Definition renders (r : Report) (text : string) : Prop :=
  ∃ lit num,
    (∀ s, string_literal (lit s) s)
    ∧ (∀ n, decimal (num n) n)
    ∧ text = report_text lit num r.

End Layout.

(** ** Helpers of the proofs about paths *)



(** * Properties *)

(** ** The model on small inputs *)

Example strip_ex : strip "  a b	 " = "a b".
Proof. reflexivity. Qed.

Example split_ex : split "/" "/a//b/" = [""; "a"; ""; "b"; ""].
Proof. reflexivity. Qed.

Example contains_ex :
  contains "fileReference" "{ns}fileReferenceX" = true /\
  endswith "{ns}fileReference" "fileReference" = true /\
  contains "path" (lower "FullPATH") = true.
Proof. repeat split. Qed.

Example rpartition_ex :
  rpartition "/" "a/b/c" = Some ("a/b", "c") /\ rpartition "/" "abc" = None.
Proof. split; reflexivity. Qed.

Example normpath_ex :
  posixpath.normpath "/proj//a/./b/../c.mov" = "/proj/a/c.mov" /\
  posixpath.normpath "//a" = "//a" /\
  posixpath.normpath "///a/.." = "/" /\
  posixpath.normpath "../x/.." = ".." /\
  posixpath.normpath "a/.." = "." /\
  posixpath.normpath "/.." = "/".
Proof. repeat split. Qed.

Example dirname_basename_ex :
  posixpath.dirname "/proj/shots/p.aepx" = "/proj/shots" /\
  posixpath.dirname "/p.aepx" = "/" /\
  posixpath.dirname "p.aepx" = "" /\
  posixpath.dirname "/a//b" = "/a" /\
  posixpath.basename "/proj/footage/clip.mov" = "clip.mov" /\
  posixpath.basename "/proj/footage/" = "".
Proof. repeat split. Qed.

Example splitext_ex :
  posixpath.splitext "/proj/footage/clip.mov" = ("/proj/footage/clip", ".mov") /\
  posixpath.splitext "/proj/a.b/clip" = ("/proj/a.b/clip", "") /\
  posixpath.splitext "/proj/.hidden" = ("/proj/.hidden", "") /\
  posixpath.splitext "/proj/..x" = ("/proj/..x", "") /\
  posixpath.splitext "/proj/a.tar.gz" = ("/proj/a.tar", ".gz") /\
  posixpath.splitext "/proj/a." = ("/proj/a", ".").
Proof. repeat split. Qed.

Example relpath_ex :
  posixpath.relpath "/home" "/proj/footage/clip.mov" "/proj" = inr "footage/clip.mov" /\
  posixpath.relpath "/home" "/other/clip.mov" "/proj/shots" = inr "../../other/clip.mov" /\
  posixpath.relpath "/home" "/proj" "/proj" = inr ".".
Proof. repeat split. Qed.

Example dumps_ex :
  json.dumps (json.JObject []) 2 = "{}"
  /\ json.dumps (json.JArray [json.JInt 1; json.JInt 20]) 2
     = "[" +:+ json.newline_indent 2 1 +:+ "1," +:+ json.newline_indent 2 1
       +:+ "20" +:+ json.newline_indent 2 0 +:+ "]"
  /\ json.newline_indent 2 1 = String (ascii_of_nat 10) "  "
  /\ json.escape ("a\b" +:+ json.quote +:+ String (ascii_of_nat 9) "c")
     = "a\\b\" +:+ json.quote +:+ "\tc".
Proof. repeat split. Qed.


(** ** Strings *)

Section string_facts.

Lemma sapp_nil_l (s : string) : EmptyString +:+ s = s.
Proof. reflexivity. Qed.

Lemma sapp_cons (c : ascii) (s t : string) :
  String c s +:+ t = String c (s +:+ t).
Proof. reflexivity. Qed.


Lemma sapp_assoc (s t u : string) : (s +:+ t) +:+ u = s +:+ (t +:+ u).
Proof. induction s as [|c s IH]; [done|]. by rewrite !sapp_cons, IH. Qed.

Lemma truthy_true (s : string) : truthy s = true ↔ s ≠ EmptyString.
Proof. destruct s; naive_solver. Qed.

Lemma truthy_false (s : string) : truthy s = false ↔ s = EmptyString.
Proof. destruct s; naive_solver. Qed.

Lemma eqb_true (s t : string) : String.eqb s t = true ↔ s = t.
Proof. apply String.eqb_eq. Qed.

Lemma eqb_false (s t : string) : String.eqb s t = false ↔ s ≠ t.
Proof. apply String.eqb_neq. Qed.

(** [s.startswith(p)] holds exactly when [s] is [p] followed by something. *)
Lemma startswith_spec (s p : string) :
  startswith s p = true ↔ ∃ post, s = p +:+ post.
Proof.
  unfold startswith. revert s.
  induction p as [|c p IH]; intros s; simpl.
  - destruct s; split; eauto.
  - destruct s as [|a s]; simpl; [split; [done|by intros [? ?]]|].
    destruct (ascii_dec c a) as [->|Hne].
    + rewrite IH. split; intros [post Hpost]; exists post.
      * by rewrite sapp_cons, <- Hpost.
      * rewrite sapp_cons in Hpost. congruence.
    + split; [done|]. intros [post Hpost]. rewrite sapp_cons in Hpost. congruence.
Qed.

Lemma endswith_nil (p : string) :
  endswith EmptyString p = String.eqb EmptyString p.
Proof. unfold endswith. apply orb_false_r. Qed.

Lemma endswith_cons (c : ascii) (s p : string) :
  endswith (String c s) p = String.eqb (String c s) p || endswith s p.
Proof. reflexivity. Qed.

(** [s.endswith(p)] holds exactly when [s] is something followed by [p]. *)
Lemma endswith_spec (s p : string) :
  endswith s p = true ↔ ∃ pre, s = pre +:+ p.
Proof.
  induction s as [|c s IH].
  - rewrite endswith_nil, eqb_true. split.
    + intros <-. by exists EmptyString.
    + intros [[|??] Hpre]; [done|]. by rewrite sapp_cons in Hpre.
  - rewrite endswith_cons, orb_true_iff, eqb_true, IH. split.
    + intros [<-|[pre ->]]; [by exists EmptyString|by exists (String c pre)].
    + intros [[|a pre] Hpre]; [by left|right].
      rewrite sapp_cons in Hpre. exists pre. congruence.
Qed.

Lemma contains_nil (sub : string) :
  contains sub EmptyString = startswith EmptyString sub.
Proof. unfold contains. apply orb_false_r. Qed.

Lemma contains_cons (sub : string) (c : ascii) (s : string) :
  contains sub (String c s) = startswith (String c s) sub || contains sub s.
Proof. reflexivity. Qed.

(** [sub in s] holds exactly when [sub] occurs somewhere inside [s]. *)
Lemma contains_spec (sub s : string) :
  contains sub s = true ↔ ∃ pre post, s = pre +:+ sub +:+ post.
Proof.
  induction s as [|c s IH].
  - rewrite contains_nil, startswith_spec. split.
    + intros [post Hpost]. by exists EmptyString, post.
    + intros [[|??] [post Hpost]]; [by exists post|]. by rewrite sapp_cons in Hpost.
  - rewrite contains_cons, orb_true_iff, startswith_spec, IH. split.
    + intros [[post Hpost]|(pre & post & ->)].
      * by exists EmptyString, post.
      * by exists (String c pre), post.
    + intros [[|a pre] [post Hpost]]; [left; by exists post|right].
      rewrite sapp_cons in Hpost. exists pre, post. congruence.
Qed.

Lemma startswith_any_spec (s : string) (ps : list string) :
  startswith_any s ps = true ↔ ∃ p post, p ∈ ps ∧ s = p +:+ post.
Proof.
  unfold startswith_any. rewrite existsb_exists. split.
  - intros (p & Hin & [post ->]%startswith_spec).
    exists p, post. by rewrite list_elem_of_In.
  - intros (p & post & Hin & ->). exists p. split.
    + by rewrite <- list_elem_of_In.
    + apply startswith_spec. by exists post.
Qed.

(** The test of the loop, [not s or s.strip() == ''], is that [s] is blank. *)
Lemma strip_empty : strip EmptyString = EmptyString.
Proof. reflexivity. Qed.

Lemma all_char_rstrip_char (c : ascii) (s : string) :
  rstrip_char c s = EmptyString ↔ all_char c s = true.
Proof.
  induction s as [|a s IH]; simpl; [done|].
  destruct (rstrip_char c s) eqn:Hr.
  - destruct (Ascii.eqb a c); simpl; [tauto|]. split; done.
  - rewrite andb_true_iff. split; [done|]. intros [_ Hall].
    by apply IH in Hall.
Qed.

Lemma rstrip_char_head (c a : ascii) (s : string) :
  all_char c (String a s) = false →
  ∃ r, rstrip_char c (String a s) = String a r.
Proof.
  intros Hall. simpl in *. destruct (rstrip_char c s) eqn:Hr; [|eauto].
  apply all_char_rstrip_char in Hr. rewrite Hr, andb_true_r in Hall.
  rewrite Hall. eauto.
Qed.

End string_facts.

(** ** Paths *)

Section path_facts.
Import posixpath.

Lemma contains_char_cons (c a : ascii) (s : string) :
  contains (String c EmptyString) (String a s)
  = Ascii.eqb a c || contains (String c EmptyString) s.
Proof.
  rewrite contains_cons. f_equal. unfold startswith. simpl.
  destruct (ascii_dec c a) as [->|Hne].
  - rewrite Ascii.eqb_refl. by destruct s.
  - symmetry. apply Ascii.eqb_neq. congruence.
Qed.



Lemma isabs_spec (p : string) : isabs p = true ↔ ∃ r, p = String "/" r.
Proof. unfold isabs. by rewrite startswith_spec. Qed.

(** [normpath] never returns the empty string. *)
Lemma normpath_truthy (p : string) : truthy (normpath p) = true.
Proof.
  unfold normpath. destruct (negb (truthy p)); [done|].
  match goal with |- truthy (if truthy ?x then _ else _) = _ =>
    generalize x end.
  by intros [|??].
Qed.

Lemma isabs_cons (r : string) : isabs (String "/" r) = true.
Proof. apply isabs_spec. eauto. Qed.

Lemma initial_slashes_isabs (r : string) :
  ∃ n, initial_slashes (String "/" r) = S n.
Proof.
  unfold initial_slashes. change (startswith (String "/" r) "/") with (startswith r "").
  assert (startswith r "" = true) as -> by by destruct r.
  destruct (_ && _); eauto.
Qed.

Lemma normpath_isabs (p : string) : isabs p = true → isabs (normpath p) = true.
Proof.
  intros [r ->]%isabs_spec. unfold normpath. cbn [truthy negb].
  destruct (initial_slashes_isabs r) as [n ->].
  change (0 <? S n)%nat with true. cbn [slashes]. rewrite sapp_cons. cbn [truthy].
  apply isabs_cons.
Qed.

Lemma join_isabs (a b : string) : isabs a = true → isabs (join a b) = true.
Proof.
  intros [r ->]%isabs_spec. unfold join.
  destruct (startswith b "/") eqn:Hb; [done|].
  destruct (negb (truthy (String "/" r)) || endswith (String "/" r) "/");
    rewrite sapp_cons; apply isabs_cons.
Qed.

Lemma abspath_isabs (cwd p : string) :
  isabs cwd = true → isabs (abspath cwd p) = true.
Proof.
  intros Hcwd. unfold abspath. apply normpath_isabs.
  destruct (isabs p) eqn:Hp; simpl; [done|]. by apply join_isabs.
Qed.

Lemma head_part_isabs (p : string) :
  isabs p = true → ∃ r, head_part p = String "/" r.
Proof.
  intros [r ->]%isabs_spec. unfold head_part. simpl.
  destruct (rpartition "/" r) as [[h t]|]; eauto.
Qed.

Lemma dirname_isabs (p : string) : isabs p = true → isabs (dirname p) = true.
Proof.
  intros [r Hr]%head_part_isabs. unfold dirname. rewrite Hr. simpl truthy.
  destruct (all_char "/" (String "/" r)) eqn:Hall; simpl andb; cbv iota.
  - apply isabs_cons.
  - apply rstrip_char_head in Hall as [r' ->]. apply isabs_cons.
Qed.



End path_facts.

(** ** Ordering of strings and [list.sort] *)

Section order_facts.

Lemma lex_le_cons (a : ascii) (s t : string) :
  lex_le (String a s) (String a t) ↔ lex_le s t.
Proof.
  split.
  - intros [[post Hpost]|(pre & x & y & s' & t' & Hs & Ht & Hlt)].
    + left. exists post. rewrite sapp_cons in Hpost. congruence.
    + destruct pre as [|c pre].
      * rewrite sapp_nil_l in Hs, Ht. simplify_eq. lia.
      * rewrite sapp_cons in Hs, Ht. simplify_eq. right. by exists pre, x, y, s', t'.
  - intros [[post ->]|(pre & x & y & s' & t' & -> & -> & Hlt)].
    + left. by exists post.
    + right. by exists (String a pre), x, y, s', t'.
Qed.

(** [String.le], the order of the model, is the lexicographic order. *)
Lemma le_lex (s t : string) : String.le s t ↔ lex_le s t.
Proof.
  unfold String.le, String.leb. revert t.
  induction s as [|a s IH]; intros [|b t]; simpl.
  - split; [|done]. intros _. left. by exists EmptyString.
  - split; [|done]. intros _. left. by exists (String b t).
  - split; [done|].
    intros [[post Hpost]|(pre & x & y & s' & t' & Hs & Ht & Hlt)]; [done|].
    by destruct pre.
  - destruct (Ascii.compare a b) eqn:Hab.
    + apply Ascii.compare_eq_iff in Hab as ->. by rewrite IH, lex_le_cons.
    + split; [|done]. intros _. right.
      exists EmptyString, a, b, s, t. split_and!; [done..|].
      by apply N.compare_lt_iff.
    + split; [done|]. unfold Ascii.compare in Hab.
      apply N.compare_gt_iff in Hab.
      intros [[post Hpost]|(pre & x & y & s' & t' & Hs & Ht & Hlt)].
      * rewrite sapp_cons in Hpost. simplify_eq. lia.
      * destruct pre as [|c pre].
        -- rewrite sapp_nil_l in Hs, Ht. simplify_eq. lia.
        -- rewrite sapp_cons in Hs, Ht. simplify_eq. lia.
Qed.

Lemma ltb_true_le (s t : string) : String.ltb s t = true → String.le s t.
Proof.
  unfold String.ltb, String.le, String.leb. by destruct (String.compare s t).
Qed.

Lemma ltb_false_le (s t : string) : String.ltb s t = false → String.le t s.
Proof.
  unfold String.ltb, String.le, String.leb. rewrite (String.compare_antisym t s).
  by destruct (String.compare s t).
Qed.

End order_facts.

Section sort_facts.
Context {A : Type} (key : A → string).
Local Abbreviation key_le := (key_le key).

Lemma insert_by_perm (x : A) (l : list A) : insert_by key x l ≡ₚ x :: l.
Proof.
  induction l as [|y l IH]; simpl; [done|].
  destruct (String.ltb (key y) (key x)); [|done].
  rewrite IH. apply Permutation_swap.
Qed.

Lemma sort_by_perm (l : list A) : sort_by key l ≡ₚ l.
Proof.
  induction l as [|x l IH]; simpl; [done|].
  by rewrite insert_by_perm, IH.
Qed.

Lemma insert_by_sorted (x : A) (l : list A) :
  StronglySorted key_le l → StronglySorted key_le (insert_by key x l).
Proof.
  induction 1 as [|y l Hl IH Hy]; simpl.
  - repeat constructor.
  - destruct (String.ltb (key y) (key x)) eqn:Hlt.
    + constructor; [done|]. rewrite insert_by_perm.
      constructor; [|done]. by apply ltb_true_le.
    + apply ltb_false_le in Hlt. constructor; [by constructor|].
      constructor; [done|].
      eapply Forall_impl; [exact Hy|]. intros z Hz.
      unfold key_le in *. by etrans.
Qed.

Lemma sort_by_sorted (l : list A) : StronglySorted key_le (sort_by key l).
Proof.
  induction l as [|x l IH]; simpl; [constructor|]. by apply insert_by_sorted.
Qed.

(** When the key tells the elements apart, the result of the sort depends
    on the elements only, not on the order they came in. *)
Lemma sort_by_unique (l1 l2 : list A) :
  l1 ≡ₚ l2 →
  (∀ x y, x ∈ l1 → y ∈ l1 → key x = key y → x = y) →
  sort_by key l1 = sort_by key l2.
Proof.
  intros Hperm Hinj.
  apply (StronglySorted_unique_strong key_le); [|apply sort_by_sorted..|].
  - intros x y Hx Hy Hxy Hyx. apply Hinj.
    + by rewrite <- (sort_by_perm l1).
    + by rewrite Hperm, <- (sort_by_perm l2).
    + unfold key_le in *. by apply (anti_symm String.le).
  - by rewrite !sort_by_perm.
Qed.

End sort_facts.

(** ** The interpreter *)

Section py_facts.

(** A loop whose body neither prints nor raises is a left fold. *)
Lemma for_each_pure {A S} (body : S → A → Py S) (f : S → A → S) :
  (∀ s x st, body s x st = (Return (f s x), st)) →
  ∀ l s st, for_each body s l st = (Return (foldl f s l), st).
Proof.
  intros Hbody. induction l as [|x l IH]; intros s st; simpl; [done|].
  unfold mbind, Py_bind. by rewrite Hbody, IH.
Qed.

End py_facts.

Section resolution_facts.
Import posixpath os_path Spec.
Context (w : World) (d : string).

Lemma blank_test (s : string) :
  negb (truthy s) || String.eqb (strip s) "" = negb (truthy (strip s)).
Proof.
  destruct s as [|c s]; [done|]. simpl negb. simpl orb.
  destruct (strip (String c s)); done.
Qed.

Lemma isfile_exists (p : string) : exists_ w p && isfile w p = isfile w p.
Proof. unfold exists_, isfile. by destruct (stat w p). Qed.

Lemma isfile_getsize (p : string) :
  isfile w p = true → getsize w p = inr (size_of w p).
Proof. unfold isfile, getsize, size_of. by destruct (stat w p). Qed.

Lemma relpath_normpath (x start : string) :
  relpath w (normpath x) start = inr (relative_to w (normpath x) start).
Proof.
  unfold relative_to, relpath, posixpath.relpath.
  rewrite normpath_truthy. simpl negb. cbv iota.
  by destruct (_ ++ _)%list.
Qed.

(** The loop body of the source computes the resolution of the
    specification; it prints nothing and raises nothing. *)
Lemma process_asset_resolve (r : Report) (s : string) (st : Streams) :
  process_asset w d r s st = (Return (record r (resolve w d s)), st).
Proof.
  unfold process_asset, resolve, survives. rewrite blank_test.
  destruct (truthy (strip s)); cbn [negb andb]; [|done].
  destruct (startswith_any (strip s) url_schemes); cbn [negb]; [done|].
  rewrite isfile_exists. unfold resolved_path.
  assert ((if negb (isabs (strip s)) then join d (strip s) else strip s)
          = (if isabs (strip s) then strip s else join d (strip s))) as ->
    by by destruct (isabs (strip s)).
  destruct (isfile w _) eqn:Hfile; [|done].
  unfold mbind, Py_bind. rewrite (isfile_getsize _ Hfile). simpl lift.
  unfold mret at 1, Py_ret at 1. rewrite relpath_normpath. done.
Qed.

Lemma foldl_record (l : list string) (r : Report) :
  foldl (λ r s, record r (resolve w d s)) r l
  = mkReport (project_file r) (assets r ++ found w d l)
      (missing_assets r ++ lost w d l)
      (total_size r + sum_sizes (found w d l)).
Proof.
  revert r. induction l as [|s l IH]; intros r; simpl.
  - rewrite !app_nil_r, Z.add_0_r. by destruct r.
  - rewrite IH. unfold found, lost. simpl.
    destruct (resolve w d s) as [|a|p]; simpl; [done| |].
    + rewrite <- !(assoc_L (++)). simpl. f_equal. lia.
    + by rewrite <- !(assoc_L (++)).
Qed.

(** The loop over the candidates, from any report. *)
Lemma for_each_process (l : list string) (r : Report) (st : Streams) :
  for_each (process_asset w d) r l st
  = (Return (mkReport (project_file r) (assets r ++ found w d l)
               (missing_assets r ++ lost w d l)
               (total_size r + sum_sizes (found w d l))), st).
Proof.
  rewrite (for_each_pure _ (λ r s, record r (resolve w d s)));
    [|apply process_asset_resolve].
  by rewrite foldl_record.
Qed.

Lemma found_perm (l1 l2 : list string) :
  l1 ≡ₚ l2 → found w d l1 ≡ₚ found w d l2.
Proof. intros H. unfold found. by rewrite H. Qed.

Lemma lost_perm (l1 l2 : list string) :
  l1 ≡ₚ l2 → lost w d l1 ≡ₚ lost w d l2.
Proof. intros H. unfold lost. by rewrite H. Qed.

Lemma sum_sizes_perm (l1 l2 : list AssetRecord) :
  l1 ≡ₚ l2 → sum_sizes l1 = sum_sizes l2.
Proof.
  induction 1 as [|x l1 l2 _ IH|x y l|l1 l2 l3 _ IH1 _ IH2]; simpl;
    [done|by rewrite IH|lia|congruence].
Qed.

Lemma elem_of_found (a : AssetRecord) (l : list string) :
  a ∈ found w d l ↔
  ∃ s, s ∈ l ∧ survives s = true
       ∧ isfile w (resolved_path d s) = true
       ∧ a = asset_of w d (resolved_path d s).
Proof.
  unfold found. rewrite list_elem_of_omap. unfold resolve. split.
  - intros (s & Hs & Hres). exists s.
    destruct (survives s); [|done].
    destruct (isfile w (resolved_path d s)); [|done].
    simpl in Hres. by simplify_eq.
  - intros (s & Hs & Hsurv & Hfile & ->). exists s. by rewrite Hsurv, Hfile.
Qed.

Lemma elem_of_lost (p : string) (l : list string) :
  p ∈ lost w d l ↔
  ∃ s, s ∈ l ∧ survives s = true
       ∧ isfile w (resolved_path d s) = false
       ∧ p = resolved_path d s.
Proof.
  unfold lost. rewrite list_elem_of_omap. unfold resolve. split.
  - intros (s & Hs & Hres). exists s.
    destruct (survives s); [|done].
    destruct (isfile w (resolved_path d s)); [done|].
    simpl in Hres. by simplify_eq.
  - intros (s & Hs & Hsurv & Hfile & ->). exists s. by rewrite Hsurv, Hfile.
Qed.

(** Two records of one run with the same path are the same record. *)
Lemma found_path_inj (l : list string) (a b : AssetRecord) :
  a ∈ found w d l → b ∈ found w d l → a_path a = a_path b → a = b.
Proof.
  intros (s & _ & _ & _ & ->)%elem_of_found (t & _ & _ & _ & ->)%elem_of_found.
  simpl. by intros ->.
Qed.

End resolution_facts.

(** ** The candidate set *)

Section collect_facts.
Import Rules.

Lemma Element_ind' (P : Element → Prop) :
  (∀ t a x cs, Forall P cs → P (mkElement t a x cs)) → ∀ e, P e.
Proof.
  intros H. fix IH 1. intros [t a x cs]. apply H.
  induction cs as [|c cs IHcs]; constructor; [apply IH|exact IHcs].
Qed.

Lemma elem_of_concat_map {A B} (f : A → list B) (l : list A) (y : B) :
  y ∈ concat (map f l) ↔ ∃ x, x ∈ l ∧ y ∈ f x.
Proof.
  rewrite list_elem_of_In, in_concat. setoid_rewrite in_map_iff.
  setoid_rewrite list_elem_of_In. naive_solver.
Qed.

(** [root.iter()] visits exactly the nodes of the tree. *)
Lemma iter_node_of (root x : Element) : x ∈ iter root ↔ node_of root x.
Proof.
  split.
  - revert x. induction root as [t a y cs IH] using Element_ind'.
    intros x. simpl. rewrite elem_of_cons. intros [->|Hx]; [constructor|].
    apply elem_of_concat_map in Hx as (c & Hc & Hx).
    rewrite Forall_forall in IH. apply (node_child _ c); [done|].
    by apply IH.
  - induction 1 as [[t a y cs]|[t a y cs] c x Hc _ IH]; simpl.
    + by left.
    + right. apply elem_of_concat_map. by exists c.
Qed.

(** A loop that only adds to the set. *)
Lemma foldl_set_spec {A} (step : gset string → A → gset string)
    (P : A → string → Prop) :
  (∀ S e s, s ∈ step S e ↔ s ∈ S ∨ P e s) →
  ∀ l S s, s ∈ foldl step S l ↔ s ∈ S ∨ ∃ e, e ∈ l ∧ P e s.
Proof.
  intros Hstep. induction l as [|e l IH]; intros S s; simpl.
  - split; [by left|]. intros [?|(e & He & _)]; [done|]. by apply elem_of_nil in He.
  - rewrite IH, Hstep. setoid_rewrite elem_of_cons. naive_solver.
Qed.

Lemma set_add_spec (S : gset string) (x s : string) :
  s ∈ set_add S x ↔ s ∈ S ∨ s = x.
Proof. unfold set_add. set_solver. Qed.

Lemma reference_tag_test (t : string) :
  endswith t "fileReference" || contains "fileReference" t = true
  ↔ is_reference_tag t.
Proof.
  rewrite orb_true_iff, endswith_spec, contains_spec. unfold is_reference_tag.
  split; [naive_solver|]. intros [->|[?|?]]; [|by left|by right].
  left. by exists EmptyString.
Qed.

Lemma strip_truthy (v : string) :
  truthy v && truthy (strip v) = true ↔ strip v ≠ EmptyString.
Proof.
  rewrite andb_true_iff, !truthy_true. split; [naive_solver|].
  intros H. split; [|done]. by intros ->.
Qed.

Lemma method1_body_spec (S : gset string) (e : Element) (s : string) :
  s ∈ method1_body S e ↔ s ∈ S ∨ rule_A e s.
Proof.
  unfold method1_body, rule_A.
  destruct (endswith (tag e) "fileReference" || contains "fileReference" (tag e))
    eqn:Htag.
  - apply reference_tag_test in Htag.
    destruct (attrib e !! "fullpath") as [v|]; [|naive_solver].
    destruct (truthy v && truthy (strip v)) eqn:Hv.
    + apply strip_truthy in Hv. rewrite set_add_spec. naive_solver.
    + assert (¬ strip v ≠ EmptyString) by (rewrite <- strip_truthy; congruence).
      naive_solver.
  - assert (¬ is_reference_tag (tag e))
      by (rewrite <- reference_tag_test; congruence).
    naive_solver.
Qed.

Lemma text_add_spec (S : gset string) (e : Element) (s : string) :
  s ∈ match text e with
      | Some t => if truthy t then set_add S t else S
      | None => S
      end
  ↔ s ∈ S ∨ (text e = Some s ∧ s ≠ EmptyString).
Proof.
  destruct (text e) as [t|]; [|naive_solver].
  destruct (truthy t) eqn:Ht.
  - apply truthy_true in Ht. rewrite set_add_spec. naive_solver.
  - apply truthy_false in Ht. naive_solver.
Qed.

Lemma method2_body_spec (S : gset string) (e : Element) (s : string) :
  s ∈ method2_body S e ↔ s ∈ S ∨ (text e = Some s ∧ s ≠ EmptyString).
Proof. apply text_add_spec. Qed.

Lemma names_test (k : string) :
  contains "path" (lower k) || contains "file" (lower k) = true
  ↔ names_path_or_file k.
Proof. by rewrite orb_true_iff, !contains_spec. Qed.

Lemma method3_attr_spec (S : gset string) (item : string * string) (s : string) :
  s ∈ method3_attr S item ↔ s ∈ S ∨ (names_path_or_file item.1 ∧ s = item.2).
Proof.
  destruct item as [k v]. unfold method3_attr. simpl.
  destruct (contains "path" (lower k) || contains "file" (lower k)) eqn:Hk.
  - apply names_test in Hk. rewrite set_add_spec. naive_solver.
  - assert (¬ names_path_or_file k) by (rewrite <- names_test; congruence).
    naive_solver.
Qed.

Lemma method3_body_spec (S : gset string) (e : Element) (s : string) :
  s ∈ method3_body S e ↔ s ∈ S ∨ rule_C e s.
Proof.
  unfold method3_body, rule_C. case_bool_decide as Htag; [|naive_solver].
  rewrite (foldl_set_spec _ _ method3_attr_spec), text_add_spec. split.
  - intros [[?|?]|([k v] & Hin & Hk & ->)]; [by left|naive_solver|].
    apply elem_of_map_to_list in Hin. right. split; [done|]. right. by exists k.
  - intros [?|[_ [?|(k & Hk & Hn)]]]; [by left; left|by left; right|].
    right. exists (k, s). split_and!; [|done..]. by apply elem_of_map_to_list.
Qed.

(** The candidate set holds exactly what the three rules contribute, over
    every node of the tree. *)
Lemma collect_spec (root : Element) (s : string) :
  s ∈ collect root ↔
  ∃ e, node_of root e ∧ (rule_A e s ∨ rule_B e s ∨ rule_C e s).
Proof.
  unfold collect.
  rewrite (foldl_set_spec _ _ method3_body_spec).
  rewrite (foldl_set_spec _ _ method2_body_spec).
  rewrite (foldl_set_spec _ _ method1_body_spec).
  unfold iter_tag. setoid_rewrite list_elem_of_filter.
  setoid_rewrite iter_node_of. unfold rule_B. set_solver.
Qed.

End collect_facts.

(** ** One run of [parse_aepx] *)

Section run_facts.
Import posixpath os_path Spec.
Context (w : World).

(** The soft-fail branch: whatever [ET.parse] raised, the report is the
    empty one and one line goes to the error stream. *)
Lemma parse_aepx_failed (o : SetOrder) (p : string) (e : Exception) (st : Streams) :
  ET_parse w p = inl e →
  parse_aepx w o p st
  = (Return (empty_report w p), mkStreams (stdout st) (stderr st ++ [warning e])).
Proof. intros He. unfold parse_aepx. by rewrite He. Qed.

(** The other branch: the report is made of the resolutions of the
    candidates, in the order the sort leaves them. *)
Lemma parse_aepx_parsed (o : SetOrder) (p : string) (root : Element) (st : Streams) :
  ET_parse w p = inr root →
  parse_aepx w o p st
  = (Return
       (mkReport (abspath w p)
          (sort_by a_path (found w (project_dir w p) (set_iter o (collect root))))
          (sort_by id (lost w (project_dir w p) (set_iter o (collect root))))
          (sum_sizes (found w (project_dir w p) (set_iter o (collect root))))),
     st).
Proof.
  intros Hroot. unfold parse_aepx. rewrite Hroot.
  unfold mbind, Py_bind. rewrite for_each_process. simpl.
  unfold mret, Py_ret. by rewrite Z.add_0_l.
Qed.

(** [parse_aepx] always returns: it raises nothing. *)
Lemma parse_aepx_returns (o : SetOrder) (p : string) (st : Streams) :
  ∃ r st', parse_aepx w o p st = (Return r, st').
Proof.
  destruct (ET_parse w p) as [e|root] eqn:Hp.
  - rewrite (parse_aepx_failed _ _ e) by done. eauto.
  - rewrite (parse_aepx_parsed _ _ root) by done. eauto.
Qed.

Lemma set_iter_perm (o1 o2 : SetOrder) (S : gset string) :
  set_iter o1 S ≡ₚ set_iter o2 S.
Proof. unfold set_iter. by rewrite !order_perm. Qed.

(** The order in which the set is walked does not show in the result. *)
Lemma parse_aepx_order (o1 o2 : SetOrder) (p : string) (st : Streams) :
  parse_aepx w o1 p st = parse_aepx w o2 p st.
Proof.
  destruct (ET_parse w p) as [e|root] eqn:Hp.
  - by rewrite !(parse_aepx_failed _ _ e).
  - rewrite !(parse_aepx_parsed _ _ root) by done.
    pose proof (set_iter_perm o1 o2 (collect root)) as Hperm.
    do 3 f_equal.
    + apply sort_by_unique; [by apply found_perm|]. apply found_path_inj.
    + apply sort_by_unique; [by apply lost_perm|]. by intros x y _ _.
    + apply sum_sizes_perm. by apply found_perm.
Qed.

End run_facts.

(** ** Normalized paths *)

Section normalized_lemmas.
Import posixpath os_path Spec.

Lemma split_no_sep (s : string) :
  Forall (λ c, contains sep1 c = false) (split "/" s).
Proof.
  induction s as [|a s IH]; cbn [split]; [by repeat constructor|].
  destruct (Ascii.eqb a "/") eqn:Ha; [constructor; [reflexivity|done]|].
  unfold sep1 in *.
  destruct (split "/" s) as [|h t].
  - constructor; [|constructor]. by rewrite contains_char_cons, Ha.
  - inversion IH as [|?? Hh Ht]; subst. constructor; [|done].
    by rewrite contains_char_cons, Ha, Hh.
Qed.

Lemma Forall_removelast {A} (P : A → Prop) (l : list A) :
  Forall P l → Forall P (removelast l).
Proof.
  induction 1 as [|x l Hx Hl IH]; [constructor|]. simpl.
  destruct l; [constructor|]. by constructor.
Qed.

(** One round of the loop of [normpath] keeps the components clean, when
    the path starts with a slash. *)
Lemma norm_step_clean (n : nat) (new_comps : list string) (comp : string) :
  contains sep1 comp = false →
  Forall clean_segment new_comps →
  Forall clean_segment (norm_step (S n) new_comps comp).
Proof.
  intros Hsep Hclean. unfold norm_step.
  destruct (String.eqb comp "") eqn:He; [done|].
  destruct (String.eqb comp ".") eqn:Hd; [done|]. cbn [orb].
  apply eqb_false in He, Hd.
  destruct (String.eqb comp "..") eqn:Hdd; cbn [negb orb Nat.eqb andb].
  - case_bool_decide as Hlast; [|by apply Forall_removelast].
    apply last_Some in Hlast as [l' ->].
    apply Forall_app in Hclean as [_ Hbad].
    by inversion Hbad as [|?? (_ & _ & ? & _)].
  - apply eqb_false in Hdd. apply Forall_app. split; [done|].
    by repeat constructor.
Qed.

Lemma foldl_norm_step_clean (n : nat) (comps acc : list string) :
  Forall (λ c, contains sep1 c = false) comps →
  Forall clean_segment acc →
  Forall clean_segment (foldl (norm_step (S n)) acc comps).
Proof.
  intros Hcomps. revert acc.
  induction Hcomps as [|c comps Hc _ IH]; intros acc Hacc; simpl; [done|].
  by apply IH, norm_step_clean.
Qed.

Lemma initial_slashes_abs (r : string) :
  initial_slashes (String "/" r) = 1%nat ∨ initial_slashes (String "/" r) = 2%nat.
Proof.
  unfold initial_slashes.
  change (startswith (String "/" r) "/") with (startswith r "").
  assert (startswith r "" = true) as -> by by destruct r.
  destruct (_ && _); auto.
Qed.

(** [normpath] of an absolute path is absolute and normalized. *)
Lemma normpath_normalized (x : string) :
  isabs x = true → normalized_abs (normpath x).
Proof.
  intros [r ->]%isabs_spec. unfold normpath. cbn [truthy negb].
  assert (∃ n, initial_slashes (String "/" r) = S n
               ∧ (S n = 1 ∨ S n = 2)%nat) as (n & Hn & Hk).
  { destruct (initial_slashes_abs r) as [H|H]; rewrite H; eauto. }
  rewrite Hn. change (0 <? S n)%nat with true. cbv iota.
  set (comps := foldl (norm_step (S n)) [] (split "/" (String "/" r))).
  assert (Forall clean_segment comps) as Hclean
    by (apply foldl_norm_step_clean; [apply split_no_sep|constructor]).
  cbn [slashes]. rewrite sapp_cons. cbn [truthy].
  exists (S n), comps. by rewrite <- sapp_cons.
Qed.

Lemma normalized_abs_isabs (x : string) : normalized_abs x → isabs x = true.
Proof.
  intros (k & comps & [->| ->] & -> & _); cbn [slashes]; rewrite sapp_cons;
    apply isabs_cons.
Qed.

Lemma resolved_path_normalized (d s : string) :
  isabs d = true → normalized_abs (resolved_path d s).
Proof.
  intros Hd. unfold resolved_path. apply normpath_normalized.
  destruct (isabs (strip s)) eqn:Ht; [done|]. by apply join_isabs.
Qed.

Lemma abspath_normalized (w : World) (p : string) :
  isabs (getcwd w) = true → normalized_abs (abspath w p).
Proof.
  intros Hcwd. unfold abspath, posixpath.abspath. apply normpath_normalized.
  destruct (isabs p) eqn:Hp; simpl; [done|]. by apply join_isabs.
Qed.

End normalized_lemmas.

(** ** The extension of a path *)

Section extension_lemmas.
Import posixpath.





End extension_lemmas.

(** ** The relative path *)

Section relpath_lemmas.
Import posixpath os_path Spec.
Local Open Scope list_scope.






































End relpath_lemmas.

(** ** The text that [json.dumps] gives for a report *)

Section json_lemmas.
Import Layout.

Lemma spaces_pad (level : nat) : json.spaces (2 * level) = pad level.
Proof.
  induction level as [|n IH]; [done|].
  replace (2 * S n)%nat with (S (S (2 * n))) by lia. cbn [json.spaces pad].
  by rewrite IH.
Qed.

Lemma newline_indent_pad (level : nat) :
  json.newline_indent 2 level = nl +:+ pad level.
Proof. unfold json.newline_indent. by rewrite spaces_pad. Qed.

Lemma join_separated (sep : string) (l : list string) :
  PyStr.join sep l = separated sep l.
Proof. induction l as [|x [|y l] IH]; [done..|]. simpl in *. by rewrite IH. Qed.

Lemma separated_pad (P : string) (xs : list string) :
  xs ≠ [] →
  P +:+ separated ("," +:+ nl +:+ P) xs
  = separated ("," +:+ nl) (map (λ item, P +:+ item) xs).
Proof.
  induction xs as [|x xs IH]; [done|]. intros _. destruct xs as [|y xs]; [done|].
  change (separated ("," +:+ nl +:+ P) (x :: y :: xs))
    with (x +:+ ("," +:+ nl +:+ P) +:+ separated ("," +:+ nl +:+ P) (y :: xs)).
  change (separated ("," +:+ nl) (map (λ item, P +:+ item) (x :: y :: xs)))
    with ((P +:+ x) +:+ ("," +:+ nl)
          +:+ separated ("," +:+ nl) (map (λ item, P +:+ item) (y :: xs))).
  rewrite <- IH by done. by rewrite !sapp_assoc.
Qed.

(** The brackets, the line breaks and the indentation that the encoder
    puts around the items are those of a block. *)
Lemma encoder_block (level : nat) (opening closing : string) (xs : list string) :
  xs ≠ [] →
  opening +:+ json.newline_indent 2 (S level)
    +:+ PyStr.join ("," +:+ json.newline_indent 2 (S level)) xs
    +:+ json.newline_indent 2 level +:+ closing
  = block level opening closing xs.
Proof.
  intros Hne. unfold block. destruct xs as [|x xs]; [done|].
  rewrite !newline_indent_pad, join_separated, <- separated_pad by done.
  by rewrite !sapp_assoc.
Qed.

Lemma encode_array (level : nat) (items : list json.value) :
  json.encode 2 level (json.JArray items)
  = block level "[" "]" (map (json.encode 2 (S level)) items).
Proof.
  destruct items as [|v items]; [done|].
  rewrite <- encoder_block by done. done.
Qed.

Lemma encode_object (level : nat) (items : list (string * json.value)) :
  json.encode 2 level (json.JObject items)
  = block level "{" "}"
      (map (λ kv, json.encode_string kv.1 +:+ ": "
                  +:+ json.encode 2 (S level) kv.2) items).
Proof.
  destruct items as [|[k v] items]; [done|].
  rewrite <- encoder_block by done. cbn [json.encode].
  do 2 f_equal. f_equal. f_equal. apply map_ext. by intros [??].
Qed.

Lemma member_key (k v : string) :
  json.escape k = k → json.encode_string k +:+ ": " +:+ v = member k v.
Proof.
  intros Hk. unfold json.encode_string, member. rewrite Hk.
  by rewrite !sapp_assoc.
Qed.

Lemma encode_asset (a : AssetRecord) :
  json.encode 2 2 (asset_json a)
  = asset_text json.encode_string json.encode_int 2 a.
Proof.
  unfold asset_json, asset_text. rewrite encode_object. cbn [map fst snd].
  by rewrite !member_key.
Qed.

(** [json.dumps(result, indent=2)] lays the report out as the
    specification has it. *)
Lemma dumps_report (r : Report) :
  json.dumps (report_json r) 2
  = report_text json.encode_string json.encode_int r.
Proof.
  unfold json.dumps, report_json, report_text.
  rewrite encode_object. cbn [map fst snd].
  rewrite !member_key by done. rewrite !encode_array, !map_map.
  rewrite (map_ext _ _ encode_asset).
  by rewrite (map_ext (λ x, json.encode 2 2 (json.JString x)) json.encode_string).
Qed.

(** Reading back what the encoder writes for one character. *)
Lemma unescape_escape_char (c : ascii) (rest : string) :
  unescape (json.escape_char c +:+ rest) = String c <$> unescape rest.
Proof. destruct c as [[] [] [] [] [] [] [] []]; reflexivity. Qed.

Lemma unescape_escape (s : string) : unescape (json.escape s) = Some s.
Proof.
  induction s as [|c s IH]; [done|]. cbn [json.escape].
  by rewrite unescape_escape_char, IH.
Qed.

(** The encoder writes each string as a JSON string that denotes it. *)
Lemma encode_string_literal (s : string) :
  string_literal (json.encode_string s) s.
Proof.
  exists (json.escape s). split; [done|]. apply unescape_escape.
Qed.

(** The encoder writes each integer in decimal. *)
Lemma encode_int_decimal (n : Z) : decimal (json.encode_int n) n.
Proof.
  unfold decimal, json.encode_int. apply NilZero.isi.
  - destruct n; [done| |done]. simpl. intros [= H].
    by apply DecimalPos.Unsigned.to_uint_nonnil in H.
  - destruct n; [done..|]. simpl. intros [= H].
    by apply DecimalPos.Unsigned.to_uint_nonnil in H.
Qed.

(** What the script prints is the report as the specification lays it
    out. *)
Lemma dumps_renders (r : Report) : renders r (json.dumps (report_json r) 2).
Proof.
  exists json.encode_string, json.encode_int.
  split_and!; [apply encode_string_literal|apply encode_int_decimal|].
  apply dumps_report.
Qed.

End json_lemmas.

(** * The claims *)

Section report_claims.
Import posixpath os_path Spec.

(** C5. In every report that [parse_aepx] returns, and it always returns
    one, [total_size] is the sum of the [size] fields of the entries of
    [assets]. *)
Theorem C5_total_size_is_sum (w : World) (o : SetOrder) (p : string) (st : Streams) :
  ∃ r st', parse_aepx w o p st = (Return r, st')
           ∧ total_size r = sum_sizes (assets r).
Proof.
  destruct (ET_parse w p) as [e|root] eqn:Hp.
  - rewrite (parse_aepx_failed _ _ _ e) by done. by eexists _, _.
  - rewrite (parse_aepx_parsed _ _ _ root) by done. eexists _, _.
    split; [done|]. simpl. apply sum_sizes_perm. by rewrite sort_by_perm.
Qed.

(** C7. In every report that [parse_aepx] returns, [assets] is in
    ascending order of [path] and [missing_assets] is in ascending order,
    both under the lexicographic comparison of strings by code point. *)
Theorem C7_output_sorted (w : World) (o : SetOrder) (p : string) (st : Streams) :
  ∃ r st', parse_aepx w o p st = (Return r, st')
           ∧ StronglySorted lex_le (a_path <$> assets r)
           ∧ StronglySorted lex_le (missing_assets r).
Proof.
  destruct (ET_parse w p) as [e|root] eqn:Hp.
  - rewrite (parse_aepx_failed _ _ _ e) by done. eexists _, _.
    split_and!; [done|constructor..].
  - rewrite (parse_aepx_parsed _ _ _ root) by done. eexists _, _.
    split_and!; [done|..]; simpl.
    + apply (StronglySorted_fmap _ (key_le a_path)); [|apply sort_by_sorted].
      intros x y. apply le_lex.
    + rewrite <- (list_fmap_id (sort_by id _)).
      apply (StronglySorted_fmap _ (key_le id)); [|apply sort_by_sorted].
      intros x y. apply le_lex.
Qed.

(** C8. Two runs on the same document and the same file system give the
    same report, the same output streams and the same exit code, however
    each of them walks the candidate set. *)
Theorem C8_deterministic (w : World) (o1 o2 : SetOrder) :
  (∀ p st, parse_aepx w o1 p st = parse_aepx w o2 p st)
  ∧ (∀ argv, run_script w o1 argv = run_script w o2 argv).
Proof.
  split; [apply parse_aepx_order|].
  intros argv. unfold run_script, main.
  destruct (negb (length argv =? 2)%nat); [done|].
  destruct (negb (exists_ w (nth 1 argv ""))); [done|].
  destruct (negb (endswith (nth 1 argv "") ".aepx")); [done|].
  unfold mbind, Py_bind. by rewrite (parse_aepx_order w o1 o2).
Qed.

End report_claims.

Section cli_claims.
Import posixpath os_path Spec.

(** [parse_aepx] writes nothing to the standard output. *)
Lemma parse_aepx_silent (w : World) (o : SetOrder) (p : string) :
  ∃ r errs, parse_aepx w o p (mkStreams [] []) = (Return r, mkStreams [] errs).
Proof.
  destruct (ET_parse w p) as [e|root] eqn:Hp.
  - rewrite (parse_aepx_failed _ _ _ e) by done. by eexists _, _.
  - rewrite (parse_aepx_parsed _ _ _ root) by done. by eexists _, _.
Qed.

(** The script with one argument that passes both checks. *)
Lemma run_script_accepted (w : World) (o : SetOrder) (prog p : string)
    (r : Report) (errs : list string) :
  exists_ w p = true →
  endswith p ".aepx" = true →
  parse_aepx w o p (mkStreams [] []) = (Return r, mkStreams [] errs) →
  run_script w o [prog; p]
  = mkProcess [json.dumps (report_json r) 2] errs
      (if decide (missing_assets r = []) then 0 else 2).
Proof.
  intros Hex Hext Hrun. unfold run_script, main.
  change (length [prog; p] =? 2)%nat with true.
  change (nth 1 [prog; p] "") with p.
  rewrite Hex, Hext. cbn [negb].
  unfold mbind, Py_bind. rewrite Hrun. simpl.
  case_bool_decide; case_decide; done.
Qed.

(** C9. Whatever exception [ET.parse] raises while it opens or parses the
    input, a missing or unreadable file as well as malformed XML,
    [parse_aepx] does not propagate it: it returns the empty report, with
    [project_file] the absolute input path, and writes one warning to the
    error stream. *)
Theorem C9_soft_fail_any_exception (w : World) (o : SetOrder) (p : string)
    (e : Exception) (st : Streams) :
  ET_parse w p = inl e →
  parse_aepx w o p st
  = (Return (mkReport (abspath w p) [] [] 0),
     mkStreams (stdout st) (stderr st ++ ["Warning: XML parse error: " +:+ exc_str e])).
Proof. apply parse_aepx_failed. Qed.

(** C3. When the document fails to parse as XML, [parse_aepx] writes a
    diagnostic to the error stream and returns the report with
    [project_file] the absolute input path, no assets, no missing assets
    and a total size of 0; the script then prints that report and exits
    with code 0. *)
Theorem C3_malformed_xml (w : World) (o : SetOrder) (p msg : string) :
  ET_parse w p = inl (ParseError msg) →
  (∀ st, parse_aepx w o p st
         = (Return (mkReport (abspath w p) [] [] 0),
            mkStreams (stdout st)
              (stderr st ++ ["Warning: XML parse error: " +:+ msg])))
  ∧ (∀ prog, exists_ w p = true → endswith p ".aepx" = true →
       run_script w o [prog; p]
       = mkProcess [json.dumps (report_json (mkReport (abspath w p) [] [] 0)) 2]
           ["Warning: XML parse error: " +:+ msg] 0).
Proof.
  intros Hp. split.
  - intros st. by rewrite (parse_aepx_failed _ _ _ _ _ Hp).
  - intros prog Hex Hext.
    rewrite (run_script_accepted w o prog p (mkReport (abspath w p) [] [] 0)
               ["Warning: XML parse error: " +:+ msg]); [done..|].
    by rewrite (parse_aepx_failed _ _ _ _ _ Hp).
Qed.

(** C4. The script exits with code 1, with a message on the error stream
    and nothing on the standard output, when the number of arguments is
    not one, or the path does not exist, or the path does not end with
    [.aepx]. Otherwise it prints the report as JSON with an indentation of
    two spaces, and exits with 2 when [missing_assets] is not empty and
    with 0 when it is. The printed text is the one the layout of the
    specification fixes: the keys [project_file], [assets],
    [missing_assets] and [total_size] in this order, one item on each
    line, two spaces for each level, each record with its five keys, every
    string a JSON string that reads back as that string and every number
    in decimal. *)
Theorem C4_cli_exit_codes (w : World) (o : SetOrder) (argv : list string) :
  (rejected w argv →
     p_stdout (run_script w o argv) = []
     ∧ p_stderr (run_script w o argv) ≠ []
     ∧ exit_code (run_script w o argv) = 1)
  ∧ (¬ rejected w argv →
     ∃ r errs,
       parse_aepx w o (nth 1 argv "") (mkStreams [] [])
       = (Return r, mkStreams [] errs)
       ∧ run_script w o argv
         = mkProcess [json.dumps (report_json r) 2] errs
             (if decide (missing_assets r = []) then 0 else 2)
       ∧ Layout.renders r (json.dumps (report_json r) 2)).
Proof.
  unfold rejected. split.
  - intros Hbad. unfold run_script, main.
    destruct (length argv =? 2)%nat eqn:Hlen; cbn [negb]; [|done].
    apply Nat.eqb_eq in Hlen.
    destruct (exists_ w (nth 1 argv "")) eqn:Hex; cbn [negb]; [|done].
    destruct (endswith (nth 1 argv "") ".aepx") eqn:Hext; cbn [negb];
      [|done].
    naive_solver.
  - intros Hok.
    destruct argv as [|prog [|p [|??]]];
      try (exfalso; apply Hok; left; simpl; lia).
    change (nth 1 [prog; p] "") with p in *.
    destruct (exists_ w p) eqn:Hex; [|exfalso; apply Hok; auto].
    destruct (endswith p ".aepx") eqn:Hext; [|exfalso; apply Hok; auto].
    destruct (parse_aepx_silent w o p) as (r & errs & Hrun).
    exists r, errs. split_and!; [done| |apply dumps_renders].
    by apply run_script_accepted.
Qed.

End cli_claims.

Section resolution_claims.
Import posixpath os_path Spec Rules.

Lemma is_url_test (t : string) : startswith_any t url_schemes = true ↔ is_url t.
Proof. apply startswith_any_spec. Qed.

Lemma survives_spec (s : string) :
  survives s = true ↔ strip s ≠ EmptyString ∧ ¬ is_url (strip s).
Proof.
  unfold survives. rewrite andb_true_iff, negb_true_iff, truthy_true.
  rewrite <- is_url_test.
  destruct (startswith_any (strip s) url_schemes); naive_solver.
Qed.

Lemma survives_false (s : string) :
  survives s = false ↔ strip s = EmptyString ∨ is_url (strip s).
Proof.
  unfold survives. rewrite andb_false_iff, negb_false_iff, truthy_false.
  by rewrite is_url_test.
Qed.




Lemma project_dir_isabs (w : World) (p : string) :
  isabs (getcwd w) = true → isabs (project_dir w p) = true.
Proof. intros Hcwd. by apply dirname_isabs, abspath_isabs. Qed.



End resolution_claims.

Section collection_claims.
Import posixpath os_path Spec Rules.


Lemma outputs_perm (w : World) (d : string) (l : list string) :
  ((a_path <$> found w d l) ++ lost w d l)%list
  ≡ₚ resolved_path d <$> filter (λ s, survives s = true) l.
Proof.
  induction l as [|s l IH]; [done|].
  rewrite filter_cons. unfold found, lost in *. simpl omap. unfold resolve.
  destruct (survives s); simpl.
  - destruct (isfile w (resolved_path d s)); simpl.
    + by rewrite IH.
    + by rewrite <- Permutation_middle, IH.
  - done.
Qed.

Lemma outputs_disjoint (w : World) (d : string) (l : list string) (x : string) :
  x ∈ a_path <$> found w d l → x ∉ lost w d l.
Proof.
  intros (a & -> & Ha)%list_elem_of_fmap Hx.
  apply elem_of_found in Ha as (s & _ & _ & Hfile & ->). simpl in Hx.
  apply elem_of_lost in Hx as (s' & _ & _ & Hnofile & Heq). congruence.
Qed.

(** The number of entries with a given path is the number of distinct
    candidates that resolve to it. *)
Lemma count_occ_fmap (f : string → string) (l : list string) (x : string) :
  count_occ string_dec (f <$> l) x = length (filter (λ s, f s = x) l).
Proof.
  induction l as [|s l IH]; [done|]. rewrite filter_cons. csimpl. rewrite IH.
  destruct (string_dec (f s) x); case_decide; simpl; congruence.
Qed.

(** C6. When the document parses, [assets] and [missing_assets] partition
    the candidate set, deduplicated, without its blank entries and its
    URLs: each such candidate gives one entry, in one of the two lists and
    not in the other; no path is in both lists; and a string that several
    rules contribute is one candidate, so the number of entries with a
    given path is the number of distinct candidate strings that resolve to
    that path. *)
Theorem C6_partition (w : World) (o : SetOrder) (aepx_path : string)
    (root : Element) (st : Streams) :
  ET_parse w aepx_path = inr root →
  let d := dirname (abspath w aepx_path) in
  let surv := survivors (collect root) in
  let out (r : Report) := ((a_path <$> assets r) ++ missing_assets r)%list in
  ∃ r, parse_aepx w o aepx_path st = (Return r, st)
    ∧ (∀ s, s ∈ surv ↔
            s ∈ collect root ∧ strip s ≠ EmptyString ∧ ¬ is_url (strip s))
    ∧ NoDup surv
    ∧ out r ≡ₚ resolved_path d <$> surv
    ∧ (length (assets r) + length (missing_assets r) = length surv)%nat
    ∧ (∀ s, s ∈ surv →
         (resolved_path d s ∈ a_path <$> assets r
          ∧ resolved_path d s ∉ missing_assets r)
         ∨ (resolved_path d s ∈ missing_assets r
            ∧ resolved_path d s ∉ a_path <$> assets r))
    ∧ (∀ x, x ∈ a_path <$> assets r → x ∉ missing_assets r)
    ∧ (∀ x, count_occ string_dec (out r) x
            = length (filter (λ s, resolved_path d s = x) surv)).
Proof.
  intros Hroot d surv out.
  rewrite (parse_aepx_parsed _ _ _ root) by done. eexists. split; [done|].
  fold (project_dir w aepx_path). fold d. unfold out. simpl.
  set (l := set_iter o (collect root)).
  assert (l ≡ₚ elements (collect root)) as Hl by apply order_perm.
  assert (((a_path <$> sort_by a_path (found w d l)) ++ sort_by id (lost w d l))%list
          ≡ₚ resolved_path d <$> surv) as Hout.
  { rewrite !sort_by_perm, outputs_perm. unfold surv, survivors. by rewrite Hl. }
  assert (∀ x, x ∈ a_path <$> sort_by a_path (found w d l) →
               x ∉ sort_by id (lost w d l)) as Hdisj.
  { intros x. rewrite !sort_by_perm. apply outputs_disjoint. }
  split_and!.
  - intros s. unfold surv, survivors.
    rewrite list_elem_of_filter, elem_of_elements, survives_spec. tauto.
  - apply NoDup_filter, NoDup_elements.
  - done.
  - apply Permutation_length in Hout.
    by rewrite length_app, !length_fmap in Hout.
  - intros s Hs.
    assert (resolved_path d s ∈ resolved_path d <$> surv) as Hin
      by (apply list_elem_of_fmap; eauto).
    rewrite <- Hout in Hin. apply elem_of_app in Hin as [Hin|Hin].
    + left. split; [done|]. by apply Hdisj.
    + right. split; [done|]. intros Hin'. by apply (Hdisj _ Hin').
  - done.
  - intros x. rewrite <- count_occ_fmap. by apply Permutation_count_occ.
Qed.

End collection_claims.

(** * The model at work: one project, one run *)

Section demo.
Import posixpath os_path Spec Rules.

Example demo_run :
  parse_aepx Demo.w Demo.as_is "/proj/shot.aepx" (mkStreams [] [])
  = (Return demo_report, mkStreams [] []).
Proof. vm_compute. reflexivity. Qed.

Example demo_run_relative :
  parse_aepx Demo.w Demo.reversed "shot.aepx" (mkStreams [] [])
  = (Return demo_report, mkStreams [] []).
Proof. vm_compute. reflexivity. Qed.

Example demo_exit_code :
  exit_code (run_script Demo.w Demo.as_is ["parse_aepx.py"; "/proj/shot.aepx"]) = 2
  ∧ exit_code (run_script Demo.w Demo.as_is ["parse_aepx.py"; "/proj/bad.aepx"]) = 0
  ∧ exit_code (run_script Demo.w Demo.as_is ["parse_aepx.py"; "/proj/none.aepx"]) = 1
  ∧ exit_code (run_script Demo.w Demo.as_is ["parse_aepx.py"; "/proj"]) = 1
  ∧ exit_code (run_script Demo.w Demo.as_is ["parse_aepx.py"]) = 1.
Proof. vm_compute. repeat split. Qed.

Example demo_candidates :
  elements (collect Demo.doc)
  ≡ₚ ["footage/clip.mov"; "missing/img.png"; "https://example.com/a.mov";
      "  "; "HTTP://example.com/a.mov"].
Proof.
  apply NoDup_Permutation; [apply NoDup_elements|by vm_compute; repeat constructor; set_solver|].
  intros s. vm_compute elements. set_solver.
Qed.

End demo.

Section scheme_case_claims.
Import posixpath os_path Spec Rules.

Lemma lower_cons_inv (c : ascii) (s t : string) :
  lower t = String c s →
  ∃ c' t', t = String c' t' ∧ lower_char c' = c ∧ lower t' = s.
Proof. destruct t as [|c' t']; [done|]. simpl. intros [= <- <-]. eauto. Qed.

Lemma lower_nil_inv (t : string) : lower t = EmptyString → t = EmptyString.
Proof. by destruct t. Qed.

Ltac invert_lower H :=
  repeat match type of H with
    | lower _ = String _ _ =>
        let c := fresh "c" in let t := fresh "t" in let Hc := fresh "Hc" in
        apply lower_cons_inv in H as (c & t & -> & Hc & H)
    | lower _ = EmptyString => apply lower_nil_inv in H as ->
    end.

(** A scheme written with other letter cases is not one of the three
    prefixes that the filter knows. *)
Lemma other_case_not_url (scheme rest : string) :
  lower scheme ∈ url_schemes → scheme ∉ url_schemes →
  ¬ is_url (scheme +:+ rest) ∧ isabs (scheme +:+ rest) = false.
Proof.
  intros Hlow Hother. unfold url_schemes in *.
  repeat (apply elem_of_cons in Hlow as [Hlow|Hlow]);
    [..|by apply elem_of_nil in Hlow]; invert_lower Hlow.
  all: split;
    [intros (s' & rest' & Hin & Heq);
     repeat (apply elem_of_cons in Hin as [->|Hin]);
       [..|by apply elem_of_nil in Hin];
     rewrite ?sapp_cons, ?sapp_nil_l in Heq; simplify_eq;
     try (by apply Hother; set_solver); by vm_compute in *
    |rewrite sapp_cons;
     match goal with |- isabs (String ?c ?x) = false =>
       destruct (isabs (String c x)) eqn:Habs; [|done];
       apply isabs_spec in Habs as [? [= -> _]]; by vm_compute in *
     end].
Qed.

(** C10. The filter knows the three schemes in lower case only. A
    candidate whose trimmed value starts with one of them in another
    letter case, [HTTP://] for one, is not dropped: it is taken as a
    relative path under the project directory, and when no regular file is
    there, the normalized path is in [missing_assets]. *)
Theorem C10_scheme_filter_is_case_sensitive (w : World) (o : SetOrder)
    (aepx_path : string) (root : Element) (s scheme rest : string) (st : Streams) :
  ET_parse w aepx_path = inr root →
  s ∈ collect root →
  strip s = scheme +:+ rest →
  lower scheme ∈ url_schemes → scheme ∉ url_schemes →
  let d := dirname (abspath w aepx_path) in
  let x := normpath (join d (strip s)) in
  isfile w x = false →
  startswith_any (strip s) url_schemes = false
  ∧ resolve w d s = Missing x
  ∧ ∃ r, parse_aepx w o aepx_path st = (Return r, st) ∧ x ∈ missing_assets r.
Proof.
  intros Hroot Hs Hstrip Hlow Hother d x Hfile.
  destruct (other_case_not_url scheme rest Hlow Hother) as [Hurl Habs].
  rewrite <- Hstrip in Hurl, Habs.
  assert (strip s ≠ EmptyString) as Hne.
  { intros Hnil. rewrite Hnil in Hstrip. destruct scheme; [|done].
    unfold url_schemes in Hlow. simpl in Hlow. set_solver. }
  assert (survives s = true) as Hsurv by by apply survives_spec.
  assert (resolved_path d s = x) as Hx
    by (unfold resolved_path; by rewrite Habs).
  assert (resolve w d s = Missing x) as Hres
    by (unfold resolve; by rewrite Hsurv, Hx, Hfile).
  split_and!; [|done|].
  - destruct (startswith_any (strip s) url_schemes) eqn:Htest; [|done].
    by apply is_url_test in Htest.
  - rewrite (parse_aepx_parsed _ _ _ root) by done. eexists. split; [done|].
    simpl. rewrite sort_by_perm. apply elem_of_lost. exists s.
    change (project_dir w aepx_path) with d. rewrite Hx. split_and!; [|done..].
    unfold set_iter. rewrite order_perm. by apply elem_of_elements.
Qed.

End scheme_case_claims.

(** * The claims on the demo project *)

Section witnesses.
Import posixpath os_path Spec Rules.

(** C3 on a document that is not XML. *)
Lemma C3_malformed_xml_witness :
  ET_parse Demo.w "/proj/bad.aepx" = inl (ParseError "syntax error: line 1, column 0")
  ∧ run_script Demo.w Demo.as_is ["parse_aepx.py"; "/proj/bad.aepx"]
    = mkProcess
        [json.dumps (report_json (mkReport "/proj/bad.aepx" [] [] 0)) 2]
        ["Warning: XML parse error: syntax error: line 1, column 0"] 0.
Proof.
  split; [reflexivity|].
  destruct (C3_malformed_xml Demo.w Demo.as_is "/proj/bad.aepx"
              "syntax error: line 1, column 0" eq_refl) as [_ Hcli].
  exact (Hcli "parse_aepx.py" eq_refl eq_refl).
Defined.

(** C9 on a path where there is no file. *)
Lemma C9_soft_fail_witness :
  exists_ Demo.w "/elsewhere/p.aepx" = false
  ∧ parse_aepx Demo.w Demo.as_is "/elsewhere/p.aepx" (mkStreams [] [])
    = (Return (mkReport "/elsewhere/p.aepx" [] [] 0),
       mkStreams []
         ["Warning: XML parse error: [Errno 2] No such file or directory: /elsewhere/p.aepx"]).
Proof.
  split; [reflexivity|].
  exact (C9_soft_fail_any_exception Demo.w Demo.as_is "/elsewhere/p.aepx"
           (FileNotFoundError "[Errno 2] No such file or directory: /elsewhere/p.aepx")
           (mkStreams [] []) eq_refl).
Defined.

(** C6 on the demo project: five candidates, three of them kept, three
    entries in the report. *)
Lemma C6_partition_witness :
  ET_parse Demo.w "/proj/shot.aepx" = inr Demo.doc
  ∧ ∃ r, parse_aepx Demo.w Demo.reversed "/proj/shot.aepx" (mkStreams [] [])
         = (Return r, mkStreams [] [])
      ∧ (length (assets r) + length (missing_assets r))%nat
        = length (survivors (collect Demo.doc))
      ∧ ∀ x, x ∈ a_path <$> assets r → x ∉ missing_assets r.
Proof.
  split; [reflexivity|].
  destruct (C6_partition Demo.w Demo.reversed "/proj/shot.aepx" Demo.doc
              (mkStreams [] []) eq_refl)
    as (r & Hrun & _ & _ & _ & Hlen & _ & Hdisj & _).
  exists r. split; [exact Hrun|]. split; [exact Hlen|exact Hdisj].
Defined.

(** C10 on the demo project: the reference to [HTTP://example.com/a.mov]. *)
Lemma C10_scheme_filter_witness :
  "HTTP://example.com/a.mov" ∈ collect Demo.doc
  ∧ ∃ r, parse_aepx Demo.w Demo.as_is "/proj/shot.aepx" (mkStreams [] [])
         = (Return r, mkStreams [] [])
      ∧ "/proj/HTTP:/example.com/a.mov" ∈ missing_assets r.
Proof.
  assert ("HTTP://example.com/a.mov" ∈ collect Demo.doc) as Hin
    by (apply (bool_decide_unpack _); vm_compute; exact I).
  assert (lower "HTTP://" ∈ url_schemes) as Hlow
    by (apply (bool_decide_unpack _); vm_compute; exact I).
  assert ("HTTP://" ∉ url_schemes) as Hother
    by (apply (bool_decide_unpack _); vm_compute; exact I).
  split; [exact Hin|].
  destruct (C10_scheme_filter_is_case_sensitive Demo.w Demo.as_is
              "/proj/shot.aepx" Demo.doc "HTTP://example.com/a.mov" "HTTP://"
              "example.com/a.mov" (mkStreams [] [])
              eq_refl Hin eq_refl Hlow Hother eq_refl)
    as (_ & _ & r & Hrun & Hx).
  exists r. split; [exact Hrun|exact Hx].
Defined.

End witnesses.

(** * Further properties of the code *)

(** ** The paths of a report are absolute and normalized *)

Section normalized_facts.
Import posixpath os_path Spec.

(** X1. With an absolute working directory, every path that a report
    names, the project file, the path of each asset and each missing entry,
    is absolute and normalized: one or two leading slashes, then segments
    separated by single slashes, none of them empty, [.] or [..]. *)
Theorem X1_report_paths_normalized (w : World) (o : SetOrder) (p : string)
    (st : Streams) :
  isabs (getcwd w) = true →
  ∃ r st', parse_aepx w o p st = (Return r, st')
    ∧ Forall (λ x, isabs x = true ∧ normalized_abs x)
        (project_file r :: (a_path <$> assets r) ++ missing_assets r).
Proof.
  intros Hcwd.
  assert (∀ x, normalized_abs x → isabs x = true ∧ normalized_abs x) as Hboth
    by (intros x Hx; split; [by apply normalized_abs_isabs|done]).
  destruct (ET_parse w p) as [e|root] eqn:Hp.
  - rewrite (parse_aepx_failed _ _ _ e) by done. eexists _, _. split; [done|].
    simpl. constructor; [|constructor]. by apply Hboth, abspath_normalized.
  - rewrite (parse_aepx_parsed _ _ _ root) by done. eexists _, _. split; [done|].
    simpl. constructor; [by apply Hboth, abspath_normalized|].
    apply Forall_forall. intros x Hx. rewrite !sort_by_perm in Hx.
    apply Hboth. apply elem_of_app in Hx as [Hx|Hx].
    + apply list_elem_of_fmap in Hx as (a & -> & Ha).
      apply elem_of_found in Ha as (s & _ & _ & _ & ->). simpl.
      by apply resolved_path_normalized, project_dir_isabs.
    + apply elem_of_lost in Hx as (s & _ & _ & _ & ->).
      by apply resolved_path_normalized, project_dir_isabs.
Qed.

End normalized_facts.

(** ** The report against the file system *)

Section filesystem_facts.
Import posixpath os_path Spec.

(** X2. Every record of [assets] describes a regular file of the file
    system: [stat] succeeds on its path, says regular file and gives the
    recorded size; its file name, extension and relative path are those of
    that path. Every entry of [missing_assets] is a path where there is no
    regular file. *)
Theorem X2_report_matches_filesystem (w : World) (o : SetOrder) (p : string)
    (st : Streams) :
  ∃ r st', parse_aepx w o p st = (Return r, st')
    ∧ (∀ a, a ∈ assets r →
         ∃ info, stat w (a_path a) = Some info
           ∧ st_isreg info = true
           ∧ a_size a = st_size info
           ∧ a_filename a = basename (a_path a)
           ∧ a_extension a = (splitext (a_path a)).2
           ∧ relpath w (a_path a) (project_dir w p) = inr (a_relative_path a))
    ∧ (∀ x, x ∈ missing_assets r →
         ∀ info, stat w x = Some info → st_isreg info = false).
Proof.
  destruct (ET_parse w p) as [e|root] eqn:Hp.
  - rewrite (parse_aepx_failed _ _ _ e) by done. eexists _, _.
    split_and!; [done|..]; simpl; intros ? Hin; by apply elem_of_nil in Hin.
  - rewrite (parse_aepx_parsed _ _ _ root) by done. eexists _, _.
    split_and!; [done|..]; simpl.
    + intros a Ha. rewrite sort_by_perm in Ha.
      apply elem_of_found in Ha as (s & _ & _ & Hfile & ->). simpl.
      unfold isfile, size_of in *.
      destruct (stat w (resolved_path (project_dir w p) s)) as [info|]; [|done].
      exists info. split_and!; [done..|].
      unfold resolved_path. apply relpath_normpath.
    + intros x Hx info Hstat. rewrite sort_by_perm in Hx.
      apply elem_of_lost in Hx as (s & _ & _ & Hfile & ->).
      unfold isfile in Hfile. by rewrite Hstat in Hfile.
Qed.

Lemma nonempty_elem {A} (l : list A) : l ≠ [] ↔ ∃ x, x ∈ l.
Proof.
  destruct l as [|x l]; split; [done| |by eexists; left|done].
  intros [x Hx]. by apply elem_of_nil in Hx.
Qed.

(** X3. For an accepted invocation on a document that parses, the exit
    code is 0 or 2, and it is 2 exactly when some candidate that is neither
    blank nor a URL resolves to a path where there is no regular file. *)
Theorem X3_exit_code_two (w : World) (o : SetOrder) (prog p : string)
    (root : Element) :
  exists_ w p = true →
  endswith p ".aepx" = true →
  ET_parse w p = inr root →
  let code := exit_code (run_script w o [prog; p]) in
  (code = 0 ∨ code = 2)
  ∧ (code = 2 ↔
     ∃ s, s ∈ collect root ∧ strip s ≠ EmptyString ∧ ¬ is_url (strip s)
          ∧ isfile w (resolved_path (project_dir w p) s) = false).
Proof.
  intros Hex Hext Hroot code. unfold code.
  erewrite run_script_accepted; [|done..|by apply parse_aepx_parsed].
  cbn [exit_code missing_assets].
  set (l := set_iter o (collect root)).
  assert (∀ s, s ∈ l ↔ s ∈ collect root) as Hl.
  { intros s. unfold l, set_iter. by rewrite order_perm, elem_of_elements. }
  assert (sort_by id (lost w (project_dir w p) l) ≠ [] ↔
          ∃ s, s ∈ collect root ∧ strip s ≠ EmptyString ∧ ¬ is_url (strip s)
               ∧ isfile w (resolved_path (project_dir w p) s) = false) as Hiff.
  { rewrite nonempty_elem. setoid_rewrite sort_by_perm.
    setoid_rewrite elem_of_lost. setoid_rewrite Hl.
    setoid_rewrite survives_spec. naive_solver. }
  case_decide as Hnil; split; [by left| |by right|]; rewrite <- Hiff;
    naive_solver.
Qed.

(** X4. An accepted invocation whose input cannot be opened or parsed,
    whatever the exception, a directory with the project suffix for one,
    still prints a report, the empty one, with one warning on the error
    stream, and exits with code 0. The printed text is the empty report as
    JSON with an indentation of two spaces: six lines, the braces and the
    four keys, with the absolute input path as a JSON string, two empty
    lists and the total 0. *)
Theorem X4_cli_soft_fail (w : World) (o : SetOrder) (prog p : string)
    (e : Exception) :
  exists_ w p = true →
  endswith p ".aepx" = true →
  ET_parse w p = inl e →
  run_script w o [prog; p]
  = mkProcess [json.dumps (report_json (mkReport (abspath w p) [] [] 0)) 2]
      ["Warning: XML parse error: " +:+ exc_str e] 0
  ∧ Layout.renders (mkReport (abspath w p) [] [] 0)
      (json.dumps (report_json (mkReport (abspath w p) [] [] 0)) 2)
  ∧ ∃ lit, Layout.string_literal lit (abspath w p)
      ∧ json.dumps (report_json (mkReport (abspath w p) [] [] 0)) 2
        = Layout.separated Layout.nl
            ["{";
             "  " +:+ Layout.q +:+ "project_file" +:+ Layout.q +:+ ": " +:+ lit +:+ ",";
             "  " +:+ Layout.q +:+ "assets" +:+ Layout.q +:+ ": [],";
             "  " +:+ Layout.q +:+ "missing_assets" +:+ Layout.q +:+ ": [],";
             "  " +:+ Layout.q +:+ "total_size" +:+ Layout.q +:+ ": 0";
             "}"].
Proof.
  intros Hex Hext He. split_and!.
  - erewrite run_script_accepted; [|done..|by apply parse_aepx_failed].
    done.
  - apply dumps_renders.
  - exists (json.encode_string (abspath w p)).
    split; [apply encode_string_literal|].
    rewrite dumps_report. unfold Layout.report_text, Layout.block, Layout.member.
    cbn [map Layout.separated Layout.pad assets missing_assets project_file
         total_size].
    change (json.encode_int 0) with "0".
    by rewrite !sapp_assoc.
Qed.

End filesystem_facts.

(** ** The candidate set over the tree *)

Section subtree_facts.
Import Rules.

Lemma node_of_root (t : string) (a : gmap string string) (x : option string)
    (cs : list Element) (e : Element) :
  node_of (mkElement t a x cs) e ↔
  e = mkElement t a x cs ∨ ∃ c, c ∈ cs ∧ node_of c e.
Proof.
  split.
  - inversion 1; subst; [by left|right; eauto].
  - intros [->|(c & Hc & He)]; [constructor|by apply (node_child _ c)].
Qed.

(** X5. The candidate set of a tree is the union of what its root
    element alone contributes and of the candidate sets of the subtrees
    under it: collection composes over the document, and neither the depth
    nor the order of the elements matters. *)
Theorem X5_collect_subtrees (t : string) (a : gmap string string)
    (x : option string) (cs : list Element) :
  collect (mkElement t a x cs)
  = collect (mkElement t a x []) ∪ ⋃ (collect <$> cs).
Proof.
  apply set_eq. intros s.
  rewrite elem_of_union, elem_of_union_list, !collect_spec.
  setoid_rewrite node_of_root. setoid_rewrite list_elem_of_fmap. split.
  - intros (e & [->|(c & Hc & He)] & Hrule).
    + left. exists (mkElement t a x []). split; [by left|done].
    + right. exists (collect c). split; [by exists c|].
      apply collect_spec. by exists e.
  - intros [(e & [->|(c & Hc & _)] & Hrule)|(S & (c & -> & Hc) & Hs)].
    + exists (mkElement t a x cs). split; [by left|done].
    + by apply elem_of_nil in Hc.
    + apply collect_spec in Hs as (e & He & Hrule).
      exists e. split; [right; by exists c|done].
Qed.

End subtree_facts.

(** ** What the report depends on *)

Section dependence_facts.
Import posixpath os_path Spec.

Lemma resolve_frame (w1 w2 : World) (d s : string) :
  getcwd w1 = getcwd w2 →
  (survives s = true →
   stat w1 (resolved_path d s) = stat w2 (resolved_path d s)) →
  resolve w1 d s = resolve w2 d s.
Proof.
  intros Hcwd Hstat. unfold resolve.
  destruct (survives s); [|done]. specialize (Hstat eq_refl).
  unfold isfile, asset_of, size_of, relative_to, relpath.
  by rewrite Hstat, Hcwd.
Qed.

Lemma found_lost_frame (w1 w2 : World) (d : string) (l : list string) :
  (∀ s, s ∈ l → resolve w1 d s = resolve w2 d s) →
  found w1 d l = found w2 d l ∧ lost w1 d l = lost w2 d l.
Proof.
  unfold found, lost. induction l as [|s l IH]; intros Hres; [done|].
  destruct IH as [IH1 IH2]; [intros s' Hs'; apply Hres; by right|].
  csimpl. by rewrite (Hres s), IH1, IH2 by by left.
Qed.

(** X6. The report depends on the file system only through the working
    directory and [stat] at the resolved paths of the candidates that are
    kept: two worlds that agree there, and give the same document, give the
    same report, whatever else their file systems hold. *)
Theorem X6_report_frame (w1 w2 : World) (o : SetOrder) (p : string)
    (root : Element) (st : Streams) :
  getcwd w1 = getcwd w2 →
  ET_parse w1 p = inr root →
  ET_parse w2 p = inr root →
  (∀ s, s ∈ collect root → strip s ≠ EmptyString → ¬ is_url (strip s) →
     stat w1 (resolved_path (project_dir w1 p) s)
     = stat w2 (resolved_path (project_dir w1 p) s)) →
  parse_aepx w1 o p st = parse_aepx w2 o p st.
Proof.
  intros Hcwd Hp1 Hp2 Hstat.
  rewrite (parse_aepx_parsed w1 _ _ root), (parse_aepx_parsed w2 _ _ root) by done.
  assert (abspath w2 p = abspath w1 p) as Habs by (unfold abspath; by rewrite Hcwd).
  assert (project_dir w2 p = project_dir w1 p) as -> by (unfold project_dir; by rewrite Habs).
  rewrite Habs.
  destruct (found_lost_frame w1 w2 (project_dir w1 p) (set_iter o (collect root)))
    as [-> ->]; [|done].
  intros s Hs. apply resolve_frame; [done|]. intros Hsurv.
  apply survives_spec in Hsurv as [Hne Hurl]. apply Hstat; [|done..].
  unfold set_iter in Hs. rewrite order_perm in Hs. by apply elem_of_elements.
Qed.

Lemma rstrip_cons (c : ascii) (s : string) :
  rstrip (String c s)
  = match rstrip s with
    | EmptyString => if isspace c then EmptyString else String c EmptyString
    | r => String c r
    end.
Proof. reflexivity. Qed.

Lemma rstrip_idem (s : string) : rstrip (rstrip s) = rstrip s.
Proof.
  induction s as [|c s IH]; [done|]. rewrite rstrip_cons.
  destruct (rstrip s) as [|a r] eqn:Hr.
  - destruct (isspace c) eqn:Hc; [done|]. rewrite rstrip_cons. simpl rstrip.
    by rewrite Hc.
  - by rewrite rstrip_cons, IH.
Qed.

Lemma lstrip_rstrip (s : string) : lstrip (rstrip (lstrip s)) = rstrip (lstrip s).
Proof.
  induction s as [|c s IH]; [done|]. cbn [lstrip].
  destruct (isspace c) eqn:Hc; [done|]. rewrite rstrip_cons.
  destruct (rstrip s); rewrite ?Hc; cbn [lstrip]; by rewrite Hc.
Qed.

(** [strip] is idempotent. *)
Lemma strip_idem (s : string) : strip (strip s) = strip s.
Proof. unfold strip. by rewrite lstrip_rstrip, rstrip_idem. Qed.

(** X7. The loop body treats a candidate and its trimmed form alike: white
    space around a path, as element text collected untrimmed has it, changes
    nothing in what the candidate adds to the report. *)
Theorem X7_trim_insensitive (w : World) (d : string) (r : Report) (s : string)
    (st : Streams) :
  process_asset w d r (strip s) st = process_asset w d r s st.
Proof.
  rewrite !process_asset_resolve. do 3 f_equal.
  unfold resolve, survives, resolved_path. by rewrite !strip_idem.
Qed.

End dependence_facts.

(** ** Repeated and absent entries *)

Section multiplicity_facts.
Import posixpath os_path Spec.

Lemma NoDup_fmap_inj_on {A B} (f : A → B) (l : list A) :
  NoDup l →
  (NoDup (f <$> l) ↔ ∀ x y, x ∈ l → y ∈ l → f x = f y → x = y).
Proof.
  intros Hl. split; [|intros Hinj; by apply NoDup_fmap_2_strong].
  induction Hl as [|a l Ha Hl IH]; csimpl.
  - intros _ x y Hx. by apply elem_of_nil in Hx.
  - intros [Hfa Hnd]%NoDup_cons x y Hx Hy Hxy.
    apply elem_of_cons in Hx as [->|Hx]; apply elem_of_cons in Hy as [->|Hy].
    + done.
    + exfalso. apply Hfa. rewrite Hxy. apply list_elem_of_fmap. eauto.
    + exfalso. apply Hfa. rewrite <- Hxy. apply list_elem_of_fmap. eauto.
    + by apply IH.
Qed.

(** X8. Duplicates are removed among the candidate strings, before they
    are trimmed and normalized, not among the resolved paths: the entries of
    a report are pairwise distinct exactly when no two distinct candidates
    that are kept resolve to the same path. Two spellings of one file give
    it two entries. *)
Theorem X8_distinct_entries (w : World) (o : SetOrder) (p : string)
    (root : Element) (st : Streams) :
  ET_parse w p = inr root →
  ∃ r, parse_aepx w o p st = (Return r, st)
    ∧ (NoDup ((a_path <$> assets r) ++ missing_assets r)
       ↔ ∀ s1 s2, s1 ∈ survivors (collect root) → s2 ∈ survivors (collect root) →
           resolved_path (project_dir w p) s1 = resolved_path (project_dir w p) s2 →
           s1 = s2).
Proof.
  intros Hroot.
  rewrite (parse_aepx_parsed _ _ _ root) by done. eexists. split; [done|].
  cbn [assets missing_assets].
  rewrite <- (NoDup_fmap_inj_on (resolved_path (project_dir w p)))
    by apply NoDup_filter, NoDup_elements.
  assert (((a_path <$> sort_by a_path (found w (project_dir w p) (set_iter o (collect root))))
           ++ sort_by id (lost w (project_dir w p) (set_iter o (collect root))))%list
          ≡ₚ resolved_path (project_dir w p) <$> survivors (collect root)) as ->;
    [|done].
  rewrite !sort_by_perm, outputs_perm. unfold survivors, set_iter.
  by rewrite order_perm.
Qed.

(** X9. A document that parses gives a report without any entry exactly
    when each of its candidates is blank or a URL, a document without any
    candidate included; the total size is then 0. *)
Theorem X9_empty_report (w : World) (o : SetOrder) (p : string)
    (root : Element) (st : Streams) :
  ET_parse w p = inr root →
  ∃ r, parse_aepx w o p st = (Return r, st)
    ∧ ((assets r = [] ∧ missing_assets r = [])
       ↔ ∀ s, s ∈ collect root → strip s = EmptyString ∨ is_url (strip s))
    ∧ (assets r = [] → total_size r = 0).
Proof.
  intros Hroot.
  rewrite (parse_aepx_parsed _ _ _ root) by done. eexists. split; [done|].
  cbn [assets missing_assets total_size].
  set (d := project_dir w p). set (l := set_iter o (collect root)).
  assert (∀ s, s ∈ l ↔ s ∈ collect root) as Hl.
  { intros s. unfold l, set_iter. by rewrite order_perm, elem_of_elements. }
  assert (∀ {A} (key : A → string) (k : list A), sort_by key k = [] ↔ k = [])
    as Hsort.
  { intros A key k. split; [|by intros ->].
    intros Hnil. apply Permutation_nil_r. by rewrite <- Hnil, sort_by_perm. }
  rewrite !Hsort. split.
  - split.
    + intros [Hf Hm] s Hs. apply survives_false.
      destruct (survives s) eqn:Hsurv; [exfalso|done].
      destruct (isfile w (resolved_path d s)) eqn:Hfile.
      * assert (asset_of w d (resolved_path d s) ∈ found w d l) as Hin
          by (apply elem_of_found; exists s; by rewrite Hl).
        rewrite Hf in Hin. by apply elem_of_nil in Hin.
      * assert (resolved_path d s ∈ lost w d l) as Hin
          by (apply elem_of_lost; exists s; by rewrite Hl).
        rewrite Hm in Hin. by apply elem_of_nil in Hin.
    + intros Hdrop. split; apply elem_of_nil_inv.
      * intros a (s & Hs & Hsurv & _)%elem_of_found.
        apply Hl, Hdrop, survives_false in Hs. congruence.
      * intros x (s & Hs & Hsurv & _)%elem_of_lost.
        apply Hl, Hdrop, survives_false in Hs. congruence.
  - by intros ->.
Qed.

End multiplicity_facts.

(** ** Sizes, and the way the input is named *)

Section size_facts.
Import posixpath os_path Spec.

Lemma sum_sizes_bounds (l : list AssetRecord) :
  Forall (λ a, 0 ≤ a_size a) l →
  0 ≤ sum_sizes l ∧ ∀ a, a ∈ l → a_size a ≤ sum_sizes l.
Proof.
  induction 1 as [|b l Hb Hl [IH0 IH]]; simpl.
  - split; [done|]. intros a Ha. by apply elem_of_nil in Ha.
  - split; [lia|]. intros a [->|Ha]%elem_of_cons; [lia|].
    specialize (IH a Ha). lia.
Qed.

(** X10. When the file system reports no negative size, the total size of
    a report is not negative and is at least the size of each of its
    records. *)
Theorem X10_total_size_bounds (w : World) (o : SetOrder) (p : string)
    (st : Streams) :
  (∀ x info, stat w x = Some info → 0 ≤ st_size info) →
  ∃ r st', parse_aepx w o p st = (Return r, st')
    ∧ 0 ≤ total_size r
    ∧ ∀ a, a ∈ assets r → 0 ≤ a_size a ≤ total_size r.
Proof.
  intros Hsize.
  destruct (ET_parse w p) as [e|root] eqn:Hp.
  - rewrite (parse_aepx_failed _ _ _ e) by done. eexists _, _.
    split_and!; [done..|]. simpl. intros a Ha. by apply elem_of_nil in Ha.
  - rewrite (parse_aepx_parsed _ _ _ root) by done. eexists _, _.
    split; [done|]. cbn [assets total_size].
    set (l := found w (project_dir w p) (set_iter o (collect root))).
    assert (Forall (λ a, 0 ≤ a_size a) l) as Hl.
    { apply Forall_forall. intros a (s & _ & _ & _ & ->)%elem_of_found.
      simpl. unfold size_of.
      destruct (stat w _) as [info|] eqn:Hstat; [by eapply Hsize|done]. }
    destruct (sum_sizes_bounds l Hl) as [H0 Hle]. split; [done|].
    intros a Ha. rewrite sort_by_perm in Ha. split; [|by apply Hle].
    rewrite Forall_forall in Hl. by apply Hl.
Qed.

(** X11. Naming the input by a relative path or by that path joined to the
    working directory makes no difference: when both names open the same
    document, the two reports are equal, [project_file] included. *)
Theorem X11_relative_input (w : World) (o : SetOrder) (p : string) (st : Streams) :
  isabs (getcwd w) = true →
  isabs p = false →
  ET_parse w (join (getcwd w) p) = ET_parse w p →
  parse_aepx w o (join (getcwd w) p) st = parse_aepx w o p st.
Proof.
  intros Hcwd Hp Hparse.
  assert (abspath w (join (getcwd w) p) = abspath w p) as Habs.
  { unfold abspath, posixpath.abspath. by rewrite Hp, (join_isabs _ _ Hcwd). }
  unfold parse_aepx. by rewrite Hparse, Habs.
Qed.

End size_facts.

(** ** The further properties on concrete worlds *)

Section extra_witnesses.
Import posixpath os_path Spec Rules.

Ltac by_decide := apply (bool_decide_unpack _); vm_compute; exact I.

(** X1 on the demo project. *)
Lemma X1_report_paths_normalized_witness :
  isabs (getcwd Demo.w) = true
  ∧ ∃ r st', parse_aepx Demo.w Demo.as_is "/proj/shot.aepx" (mkStreams [] [])
             = (Return r, st')
      ∧ Forall (λ x, isabs x = true ∧ normalized_abs x)
          (project_file r :: (a_path <$> assets r) ++ missing_assets r).
Proof.
  split; [reflexivity|].
  exact (X1_report_paths_normalized Demo.w Demo.as_is "/proj/shot.aepx"
           (mkStreams [] []) eq_refl).
Defined.

(** X3 on the demo project, where an image is missing. *)
Lemma X3_exit_code_two_witness :
  exists_ Demo.w "/proj/shot.aepx" = true
  ∧ exit_code (run_script Demo.w Demo.as_is ["parse_aepx.py"; "/proj/shot.aepx"]) = 2
  ∧ ∃ s, s ∈ collect Demo.doc
         ∧ isfile Demo.w (resolved_path (project_dir Demo.w "/proj/shot.aepx") s)
           = false.
Proof.
  split; [reflexivity|].
  destruct (X3_exit_code_two Demo.w Demo.as_is "parse_aepx.py" "/proj/shot.aepx"
              Demo.doc eq_refl eq_refl eq_refl) as [_ Hiff].
  assert (exit_code (run_script Demo.w Demo.as_is
                       ["parse_aepx.py"; "/proj/shot.aepx"]) = 2) as Hcode
    by (vm_compute; reflexivity).
  split; [exact Hcode|].
  destruct (proj1 Hiff Hcode) as (s & Hs & _ & _ & Hfile).
  exists s. split; [exact Hs|exact Hfile].
Defined.

(** X4 on a directory that carries the project suffix. *)
Lemma X4_cli_soft_fail_witness :
  stat Demo2.w_dir "/proj/dir.aepx" = Some (mkStat false 4096)
  ∧ exit_code (run_script Demo2.w_dir Demo.as_is ["parse_aepx.py"; "/proj/dir.aepx"])
    = 0.
Proof.
  split; [reflexivity|].
  rewrite (proj1 (X4_cli_soft_fail Demo2.w_dir Demo.as_is "parse_aepx.py"
                    "/proj/dir.aepx"
                    (IsADirectoryError "[Errno 21] Is a directory: /proj/dir.aepx")
                    eq_refl eq_refl eq_refl)).
  reflexivity.
Defined.

(** X6 on the demo world and the world with one more file elsewhere. *)
Lemma X6_report_frame_witness :
  stat Demo.w "/var/tmp/other.mov" ≠ stat Demo2.w_more "/var/tmp/other.mov"
  ∧ parse_aepx Demo.w Demo.as_is "/proj/shot.aepx" (mkStreams [] [])
    = parse_aepx Demo2.w_more Demo.as_is "/proj/shot.aepx" (mkStreams [] []).
Proof.
  split; [discriminate|].
  apply (X6_report_frame Demo.w Demo2.w_more Demo.as_is "/proj/shot.aepx" Demo.doc);
    [reflexivity..|].
  intros s Hs _ _. apply elem_of_elements in Hs.
  vm_compute elements in Hs.
  repeat (apply elem_of_cons in Hs as [->|Hs]; [vm_compute; reflexivity|]).
  by apply elem_of_nil in Hs.
Defined.

(** X8 on a document that names one clip under two spellings. *)
Lemma X8_distinct_entries_witness :
  ET_parse Demo2.w_twice "/proj/shot.aepx" = inr Demo2.doc_twice
  ∧ ∃ r, parse_aepx Demo2.w_twice Demo.as_is "/proj/shot.aepx" (mkStreams [] [])
         = (Return r, mkStreams [] [])
      ∧ ¬ NoDup ((a_path <$> assets r) ++ missing_assets r).
Proof.
  split; [reflexivity|].
  destruct (X8_distinct_entries Demo2.w_twice Demo.as_is "/proj/shot.aepx"
              Demo2.doc_twice (mkStreams [] []) eq_refl) as (r & Hrun & Hiff).
  exists r. split; [exact Hrun|]. intros Hnd.
  assert ("footage/clip.mov" ∈ survivors (collect Demo2.doc_twice)) as H1 by by_decide.
  assert ("./footage/clip.mov" ∈ survivors (collect Demo2.doc_twice)) as H2 by by_decide.
  discriminate (proj1 Hiff Hnd _ _ H1 H2 eq_refl).
Defined.

(** X9 on a document whose only candidates are a URL and a blank text. *)
Lemma X9_empty_report_witness :
  ET_parse Demo2.w_urls "/proj/shot.aepx" = inr Demo2.doc_urls
  ∧ ∃ r, parse_aepx Demo2.w_urls Demo.as_is "/proj/shot.aepx" (mkStreams [] [])
         = (Return r, mkStreams [] [])
      ∧ assets r = [] ∧ missing_assets r = [].
Proof.
  split; [reflexivity|].
  destruct (X9_empty_report Demo2.w_urls Demo.as_is "/proj/shot.aepx"
              Demo2.doc_urls (mkStreams [] []) eq_refl) as (r & Hrun & Hiff & _).
  exists r. split; [exact Hrun|]. apply Hiff. clear.
  intros s Hs. apply elem_of_elements in Hs. vm_compute elements in Hs.
  apply elem_of_cons in Hs as [->|Hs].
  - right. exists "https://", "example.com/a.mov". split; [by_decide|reflexivity].
  - apply elem_of_cons in Hs as [->|Hs]; [left; reflexivity|].
    apply elem_of_nil in Hs. destruct Hs.
Defined.

(** X10 on the demo project. *)
Lemma X10_total_size_bounds_witness :
  ∃ r st', parse_aepx Demo.w Demo.as_is "/proj/shot.aepx" (mkStreams [] [])
           = (Return r, st')
    ∧ 0 ≤ total_size r.
Proof.
  destruct (X10_total_size_bounds Demo.w Demo.as_is "/proj/shot.aepx"
              (mkStreams [] [])) as (r & st' & Hrun & Htotal & _).
  - intros x info. unfold Demo.w, Demo.fs. cbn [stat].
    repeat (destruct (String.eqb x _); [intros [= <-]; simpl; lia|]).
    discriminate.
  - exists r, st'. split; [exact Hrun|exact Htotal].
Defined.

(** X11 on the demo project, named by [shot.aepx] from inside [/proj]. *)
Lemma X11_relative_input_witness :
  join (getcwd Demo.w) "shot.aepx" = "/proj/shot.aepx"
  ∧ parse_aepx Demo.w Demo.as_is "/proj/shot.aepx" (mkStreams [] [])
    = parse_aepx Demo.w Demo.as_is "shot.aepx" (mkStreams [] []).
Proof.
  split; [reflexivity|].
  exact (X11_relative_input Demo.w Demo.as_is "shot.aepx" (mkStreams [] [])
           eq_refl eq_refl eq_refl).
Defined.

End extra_witnesses.
